(** * files_summarize: the map-reduce summarisation pipeline of [app.py]

    A shallow embedding of the chunker, the map stage, the combiner, the
    mode dispatch and the reduce stage of [src/app.py], and the properties
    the specification states about them; then the dispatch of
    [extract_text], the script around the pipeline, and further properties
    read off the code.

    Python values are modelled as follows.
    - [str] is a sequence of Unicode code points: [list N].
    - [int] is unbounded: [Z].
    - an exception is a value of [Exn] carried by [Result].
    - the language-model client and the Streamlit widgets are effects: they
      append to an event log, and the reply of the client is drawn from an
      arbitrary oracle (a Section variable). *)

From Stdlib Require Import String Ascii.
From Stdlib Require Import List ZArith NArith Bool Lia.
Import ListNotations.

Local Open Scope Z_scope.

(** ** Python strings *)

Module Py.

(** A Python [str]: its code points, in order. *)
Definition char := N.
Definition str := list char.

(** An ASCII literal of the source as a [str]. *)
Definition u (s : string) : str :=
  map N_of_ascii (list_ascii_of_string s).

(** [len(x)] *)
Definition len {A} (l : list A) : Z := Z.of_nat (length l).

(** [a == b] on strings. *)
Fixpoint str_eqb (a b : str) : bool :=
  match a, b with
  | [], [] => true
  | x :: a', y :: b' => N.eqb x y && str_eqb a' b'
  | _, _ => false
  end.

(** The characters [str.strip()] removes: CPython's [Py_UNICODE_ISSPACE]
    (the table [_Py_ascii_whitespace] below 128, [_PyUnicode_IsWhitespace]
    above). *)
Definition isspace (c : char) : bool :=
  ((9 <=? c) && (c <=? 13) || (28 <=? c) && (c <=? 32)
   || (c =? 133) || (c =? 160) || (c =? 5760)
   || (8192 <=? c) && (c <=? 8202)
   || (c =? 8232) || (c =? 8233) || (c =? 8239) || (c =? 8287)
   || (c =? 12288))%N.

(** [s.lstrip()] *)
Fixpoint lstrip (s : str) : str :=
  match s with
  | [] => []
  | c :: s' => if isspace c then lstrip s' else s
  end.

(** [s.rstrip()] *)
Definition rstrip (s : str) : str := rev (lstrip (rev s)).

(** [s.strip()]: the slice between the first and the last character that is
    not whitespace. *)
Definition strip (s : str) : str := rstrip (lstrip s).

(** Truth value of a string: [bool(s)] is [len(s) != 0]. *)
Definition truthy (s : str) : bool :=
  match s with [] => false | _ => true end.

(** [sep.join(parts)] *)
Fixpoint join (sep : str) (parts : list str) : str :=
  match parts with
  | [] => []
  | [p] => p
  | p :: rest => p ++ sep ++ join sep rest
  end.

(** Exceptions the modelled code can raise. *)
Inductive Exn : Type :=
| ValueError          (* range() arg 3 must not be zero *)
| CapabilityFailure.  (* anything the client call raises *)

Inductive Result (A : Type) : Type :=
| Done (a : A)
| Raised (e : Exn).
Arguments Done {A} a.
Arguments Raised {A} e.

(** An index of a slice, clamped as [PySlice_AdjustIndices] does for a
    positive step: a negative index counts from the end. *)
Definition clamp (n i : Z) : Z :=
  if i <? 0 then Z.max (i + n) 0 else Z.min i n.

(** [l[lo:hi]] *)
Definition slice {A} (l : list A) (lo hi : Z) : list A :=
  let lo' := clamp (len l) lo in
  let hi' := clamp (len l) hi in
  firstn (Z.to_nat (hi' - lo')) (skipn (Z.to_nat lo') l).

(** [list(range(start, stop, step))]; a zero step raises [ValueError]. *)
Definition range (start stop step : Z) : Result (list Z) :=
  if step =? 0 then Raised ValueError
  else
    let n :=
      if 0 <? step
      then (if start <? stop then (stop - start - 1) / step + 1 else 0)
      else (if stop <? start then (start - stop - 1) / (- step) + 1 else 0) in
    Done (map (fun k => start + Z.of_nat k * step) (seq 0 (Z.to_nat n))).

End Py.

Import Py.

(** ** Chunking ([app.py], [chunk_text]) *)

(** The default of the parameter [max_chars]. *)
Definition max_chars_default : Z := 3000.

(** [[text[i:i + max_chars] for i in range(0, len(text), max_chars)]] *)
Definition chunk_text (text : str) (max_chars : Z) : Result (list str) :=
  match range 0 (len text) max_chars with
  | Raised e => Raised e
  | Done starts =>
      Done (map (fun i => slice text i (i + max_chars)) starts)
  end.

(** [b] occurs in [a] as a contiguous run of characters. *)
Definition substring (b a : str) : Prop :=
  exists pre post, a = pre ++ b ++ post.

(** Ceiling of [a / b] for a positive [b]. *)
Definition ceil_div (a b : Z) : Z := (a + b - 1) / b.

(** The first [cnt] windows of width [m] of a text. *)
Definition windows (T : str) (m cnt : nat) : list str :=
  map (fun k => firstn m (skipn (k * m) T)) (seq 0 cnt).

(** ** The language-model request ([client.chat.completions.create]) *)

(** One role-tagged message of a request. *)
Record Message : Type := { role : str; content : str }.

(** The keyword arguments of a call of the client. *)
Record Request : Type :=
  { model : str; messages : list Message; max_tokens : Z }.

Definition MODEL : str := u "llama-3.1-8b-instant".

(** What a call of the client ends in: a response, which carries generated
    text (read as [choices[0].message.content]), or an exception (time-out,
    error response, missing credential). *)
Inductive Reply : Type :=
| Answer (text : str)
| Failure.

(** ** Effects: the event log *)

(** What a run does to the outside, in the order it does it. *)
Inductive Event : Type :=
| Chat (req : Request) (rep : Reply)   (* a request sent to the client *)
| SpinnerOn (msg : str)                (* entering [with st.spinner(msg)] *)
| SpinnerOff                           (* leaving it *)
| StError (msg : str)                  (* [st.error] *)
| StSuccess (msg : str)                (* [st.success] *)
| StSubheader (msg : str)              (* [st.subheader] *)
| StMarkdown (body : str).             (* [st.markdown] *)

(** The exchanges with the client in a log, in the order they happened. *)
Fixpoint chats (log : list Event) : list (Request * Reply) :=
  match log with
  | [] => []
  | Chat req rep :: log' => (req, rep) :: chats log'
  | _ :: log' => chats log'
  end.

(** The requests of a log, in the order they were sent. *)
Definition requests (log : list Event) : list Request := map fst (chats log).

(** The texts the client answered with, in order. *)
Fixpoint answers (log : list Event) : list str :=
  match log with
  | [] => []
  | Chat _ (Answer s) :: log' => s :: answers log'
  | _ :: log' => answers log'
  end.

(** What [st.markdown] rendered, in order. *)
Fixpoint displayed (log : list Event) : list str :=
  match log with
  | [] => []
  | StMarkdown s :: log' => s :: displayed log'
  | _ :: log' => displayed log'
  end.

(** A computation reads the log so far and returns a result, or the exception
    it raised, with the log extended. *)
Definition Prog (A : Type) : Type := list Event -> Result A * list Event.

Definition ret {A} (a : A) : Prog A := fun log => (Done a, log).

Definition bind {A B} (m : Prog A) (k : A -> Prog B) : Prog B :=
  fun log =>
    match m log with
    | (Done a, log') => k a log'
    | (Raised e, log') => (Raised e, log')
    end.

Declare Scope prog_scope.
Delimit Scope prog_scope with prog.
Notation "x <- m ;; k" := (bind m (fun x => k))
  (at level 61, m at next level, right associativity) : prog_scope.
Notation "m ;; k" := (bind m (fun _ => k))
  (at level 61, right associativity) : prog_scope.

Definition emit (e : Event) : Prog unit := fun log => (Done tt, log ++ [e]).

(** A pure call that may raise. *)
Definition lift {A} (r : Result A) : Prog A := fun log => (r, log).

(** [with st.spinner(msg): body]; the spinner goes away however the body
    ends. *)
Definition with_spinner {A} (msg : str) (body : Prog A) : Prog A :=
  fun log =>
    let '(r, log') := body (log ++ [SpinnerOn msg]) in
    (r, log' ++ [SpinnerOff]).

Definition st_error (msg : str) : Prog unit := emit (StError msg).
Definition st_success (msg : str) : Prog unit := emit (StSuccess msg).
Definition st_subheader (msg : str) : Prog unit := emit (StSubheader msg).
Definition st_markdown (body : str) : Prog unit := emit (StMarkdown body).

(** ** Prompts and mode dispatch *)

Definition nl : str := [10%N].

(** U+2013 EN DASH, the only character of the prompts outside ASCII. *)
Definition en_dash : str := [8211%N].

(** A triple-quoted literal whose quotes stand on lines of their own: a
    newline, the lines separated by newlines, a newline. *)
Definition text_block (lines : list str) : str := nl ++ join nl lines ++ nl.

Definition short_label : str := u "Short Summary (Recommended)".
Definition topic_label : str := u "Topic-wise Summary".
Definition bullet_label : str := u "Bullet-point Summary".

Definition short_prompt : str :=
  text_block
    [ u "Write a concise executive-style summary.";
      u "";
      u "RULES:";
      u "- One short paragraph";
      u "- Simple language";
      u "- No headings";
      u "- No definitions";
      u "- Focus on overall meaning";
      u "- 120" ++ en_dash ++ u "150 tokens" ].

Definition topic_prompt : str :=
  text_block
    [ u "Create a TOPIC-WISE summary.";
      u "";
      u "RULES:";
      u "- Use clear topic headings";
      u "- 2" ++ en_dash ++ u "3 short sentences per topic";
      u "- Simple student-friendly language";
      u "- No formulas or definitions";
      u "- Do not repeat topics";
      u "";
      u "FORMAT:";
      u "## Topic Name";
      u "Explanation" ].

Definition bullet_prompt : str :=
  text_block
    [ u "Create a BULLET-POINT summary.";
      u "";
      u "RULES:";
      u "- 8" ++ en_dash ++ u "12 bullet points";
      u "- Each bullet = one clear idea";
      u "- No explanations";
      u "- No definitions";
      u "- Easy to scan and act on" ].

(** The [if]/[elif]/[else] over [summary_type]: the pair
    [(final_prompt, max_tokens)] it assigns. *)
Definition summary_mode (summary_type : str) : str * Z :=
  if str_eqb summary_type short_label then (short_prompt, 170)
  else if str_eqb summary_type topic_label then (topic_prompt, 600)
  else (* Bullet-point Summary *) (bullet_prompt, 300).

(** ** The two requests *)

Definition map_system_prompt : str :=
  u "Extract only key ideas. No explanations.".

(** The request of the map step for one chunk. *)
Definition map_request (chunk : str) : Request :=
  {| model := MODEL;
     messages := [ {| role := u "system"; content := map_system_prompt |};
                   {| role := u "user"; content := chunk |} ];
     max_tokens := 120 |}.

(** The request of the reduce step. *)
Definition reduce_request (summary_type combined_text : str) : Request :=
  let '(final_prompt, budget) := summary_mode summary_type in
  {| model := MODEL;
     messages := [ {| role := u "system"; content := final_prompt |};
                   {| role := u "user"; content := combined_text |} ];
     max_tokens := budget |}.

(** ["\n".join(partial_summaries)] *)
Definition combined_text (partial_summaries : list str) : str :=
  join nl partial_summaries.

(** ** The pipeline *)

Section Pipeline.

(** The language model: what it replies to a request, given everything that
    happened before.  Nothing is assumed about it. *)
Variable capability : list Event -> Request -> Reply.

(** [client.chat.completions.create(...)]: the exchange is logged, and the
    response is handed on as the text it carries, which is all the callers
    read of it ([.choices[0].message.content]). *)
Definition chat (req : Request) : Prog str :=
  fun log =>
    let rep := capability log req in
    match rep with
    | Answer s => (Done s, log ++ [Chat req rep])
    | Failure => (Raised CapabilityFailure, log ++ [Chat req rep])
    end.

(** The [for chunk in ...] loop, appending to [partial_summaries]. *)
Fixpoint map_loop (chunks : list str) (partial_summaries : list str)
  : Prog (list str) :=
  match chunks with
  | [] => ret partial_summaries
  | chunk :: rest =>
      (res <- chat (map_request chunk) ;;
       map_loop rest (partial_summaries ++ [strip res]))%prog
  end.

(** The map step: the loop over [chunks[:6]] under its spinner. *)
Definition map_stage (chunks : list str) : Prog (list str) :=
  with_spinner (u "Reading document...") (map_loop (slice chunks 0 6) []).

(** The reduce step and the rendering of its result. *)
Definition reduce_stage (summary_type combined : str) : Prog unit :=
  (final_response <-
     with_spinner (u "Generating summary...")
       (chat (reduce_request summary_type combined)) ;;
   st_success (u "Summary Generated") ;;
   st_subheader (u "Summary") ;;
   st_markdown (strip final_response))%prog.

(** The [else] branch of the guard: chunk, map, combine, reduce. *)
Definition summarize (text summary_type : str) : Prog unit :=
  (chunks <- lift (chunk_text text max_chars_default) ;;
   partial_summaries <- map_stage chunks ;;
   reduce_stage summary_type (combined_text partial_summaries))%prog.

(** The body run when a file is uploaded and the button pressed, from the
    result [text] of [extract_text] on (the readers behind [extract_text] are
    libraries outside this development).  [not text] holds for [None] and for
    the empty string, and then [or] does not evaluate its right side. *)
Definition generate_summary (text : option str) (summary_type : str)
  : Prog unit :=
  match text with
  | None => st_error (u "Unsupported or empty file.")
  | Some t =>
      if negb (truthy t) || negb (truthy (strip t))
      then st_error (u "Unsupported or empty file.")
      else summarize t summary_type
  end.

End Pipeline.

(** ** Vocabulary of the specification *)

(** A capability that answers every request. *)
Definition never_fails (capability : list Event -> Request -> Reply) : Prop :=
  forall log req, capability log req <> Failure.

(** Whitespace-only (the empty string included). *)
Definition blank (s : str) : Prop := Forall (fun c => isspace c = true) s.

(** Extraction gave nothing to summarise: no text, or blank text. *)
Definition absent_or_blank (text : option str) : Prop :=
  match text with
  | None => True
  | Some t => blank t
  end.

(** The first character, if any, is not whitespace. *)
Definition no_leading_space (s : str) : Prop :=
  match s with
  | [] => True
  | c :: _ => isspace c = false
  end.

(** The last character, if any, is not whitespace. *)
Definition no_trailing_space (s : str) : Prop := no_leading_space (rev s).

(** The exchange of the map step for a chunk the client answered. *)
Definition map_exchange (ca : str * str) : Request * Reply :=
  (map_request (fst ca), Answer (snd ca)).

(** A stand-in for the client that answers every request with one text. *)
Definition canned (text : str) : list Event -> Request -> Reply :=
  fun _ _ => Answer text.

(** A stand-in for the client that fails every request. *)
Definition unreachable : list Event -> Request -> Reply :=
  fun _ _ => Failure.

(** The system instruction of the map step as the specification quotes it. *)
Definition spec_map_instruction : str :=
  u "extract only key ideas, no explanations".

(** ** Text extraction ([app.py], [extract_text]) *)

(** [s.endswith(suffix)] *)
Definition endswith (s suffix : str) : bool :=
  (length suffix <=? length s)%nat
  && str_eqb (skipn (length s - length suffix) s) suffix.

(** [s.endswith((a, b, ...))]: one of the suffixes fits. *)
Definition endswith_any (s : str) (suffixes : list str) : bool :=
  existsb (endswith s) suffixes.

(** [x or ""] for a page text that may be [None]. *)
Definition or_empty (x : option str) : str :=
  match x with
  | Some s => if truthy s then s else []
  | None => []
  end.

(** An uploaded file: its name and its bytes. *)
Record File : Type := { name : str; body : list N }.

(** What a call into a reader library ends in: the data read, or an
    exception of the library. *)
Inductive Read (A : Type) : Type :=
| Got (a : A)
| ReadError.
Arguments Got {A} a.
Arguments ReadError {A}.

Definition read_map {A B} (f : A -> B) (r : Read A) : Read B :=
  match r with
  | Got a => Got (f a)
  | ReadError => ReadError
  end.

(** The reader libraries [extract_text] calls, one field per call chain;
    they are outside this development and nothing is assumed about them. *)
Record Readers : Type :=
  { (* [page.extract_text()] for the pages of [PdfReader(file)] *)
    pdf_pages : File -> Read (list (option str));
    (* [p.text] for the paragraphs of [Document(file)] *)
    docx_paragraphs : File -> Read (list str);
    (* [file.read().decode("utf-8")] *)
    read_utf8 : File -> Read str;
    (* [pd.read_csv(file).to_string()] *)
    csv_to_string : File -> Read str;
    (* [pd.read_excel(file).to_string()] *)
    excel_to_string : File -> Read str;
    (* the shapes of the slides of [Presentation(file)]: [shape.text], or
       [None] for a shape without the attribute [text] *)
    pptx_shapes : File -> Read (list (list (option str)));
    (* [BeautifulSoup(file.read(), "html.parser").get_text()] *)
    html_text : File -> Read str;
    (* [pytesseract.image_to_string(Image.open(file))] *)
    image_to_string : File -> Read str }.

(** [shape.text for shape in slide.shapes if hasattr(shape, "text")] *)
Fixpoint shape_texts (shapes : list (option str)) : list str :=
  match shapes with
  | [] => []
  | Some t :: rest => t :: shape_texts rest
  | None :: rest => shape_texts rest
  end.

(** The [type] argument of [st.file_uploader]. *)
Definition uploader_types : list str :=
  [ u "pdf"; u "docx"; u "txt"; u "csv"; u "xls"; u "xlsx"; u "pptx";
    u "html"; u "htm"; u "png"; u "jpg"; u "jpeg" ].

(** [str.lower] on ASCII text, to run the dispatch on concrete names. *)
Definition ascii_lower (s : str) : str :=
  map (fun c => if (65 <=? c) && (c <=? 90) then c + 32 else c)%N s.

(** Readers that find the same text in every file. *)
Definition fixed_readers (pages : list (option str)) (text : str) : Readers :=
  {| pdf_pages := fun _ => Got pages;
     docx_paragraphs := fun _ => Got [text];
     read_utf8 := fun _ => Got text;
     csv_to_string := fun _ => Got text;
     excel_to_string := fun _ => Got text;
     pptx_shapes := fun _ => Got [[Some text]];
     html_text := fun _ => Got text;
     image_to_string := fun _ => Got text |}.

(** How a run of the script ends: normally, or with an uncaught exception
    of a reader or of the pipeline. *)
Inductive Ending : Type :=
| Completed
| ReaderRaised
| Uncaught (e : Exn).

Definition ending (r : Result unit) : Ending :=
  match r with
  | Done _ => Completed
  | Raised e => Uncaught e
  end.

Section Script.

(** [str.lower] of the Python runtime (the Unicode case mapping). *)
Variable lower : str -> str.
Variable readers : Readers.
Variable capability : list Event -> Request -> Reply.

(** The branches of [extract_text]. *)
Definition extract_pdf (file : File) : Read (option str) :=
  read_map (fun pages => Some (join (u " ") (map or_empty pages)))
    (pdf_pages readers file).

Definition extract_docx (file : File) : Read (option str) :=
  read_map (fun paragraphs => Some (join (u " ") paragraphs))
    (docx_paragraphs readers file).

Definition extract_pptx (file : File) : Read (option str) :=
  read_map (fun slides => Some (join (u " ") (flat_map shape_texts slides)))
    (pptx_shapes readers file).

(** [extract_text(file)]: the reader is chosen by the end of the lowered
    file name; [None] when no branch fits. *)
Definition extract_text (file : File) : Read (option str) :=
  let name := lower (name file) in
  if endswith name (u ".pdf") then extract_pdf file
  else if endswith name (u ".docx") then extract_docx file
  else if endswith name (u ".txt") then read_map Some (read_utf8 readers file)
  else if endswith name (u ".csv") then
    read_map Some (csv_to_string readers file)
  else if endswith_any name [u ".xls"; u ".xlsx"] then
    read_map Some (excel_to_string readers file)
  else if endswith name (u ".pptx") then extract_pptx file
  else if endswith_any name [u ".html"; u ".htm"] then
    read_map Some (html_text readers file)
  else if endswith_any name [u ".png"; u ".jpg"; u ".jpeg"] then
    read_map Some (image_to_string readers file)
  else Got None.

(** The script from [if uploaded_file and st.button("Generate Summary"):]
    on.  [uploaded_file] is what the uploader returned and [button] what the
    button returned in this run. *)
Definition script (uploaded_file : option File) (button : bool)
  (summary_type : str) (log : list Event) : Ending * list Event :=
  match uploaded_file with
  | None => (Completed, log)
  | Some file =>
      if button then
        let log1 := log ++ [SpinnerOn (u "Extracting text..."); SpinnerOff] in
        match extract_text file with
        | ReadError => (ReaderRaised, log1)
        | Got text =>
            let '(r, log2) :=
              generate_summary capability text summary_type log1 in
            (ending r, log2)
        end
      else (Completed, log)
  end.

End Script.

(** ** Shapes of a run *)

(** The log entry of a chunk the client answered. *)
Definition map_event (ca : str * str) : Event :=
  Chat (map_request (fst ca)) (Answer (snd ca)).

(** The log entries of an answered reduce request and of the rendering. *)
Definition reduce_events (req : Request) (final : str) : list Event :=
  [ SpinnerOn (u "Generating summary...");
    Chat req (Answer final);
    SpinnerOff;
    StSuccess (u "Summary Generated");
    StSubheader (u "Summary");
    StMarkdown (strip final) ].

(** The log entries of a reduce request that raised. *)
Definition reduce_failed (req : Request) : list Event :=
  [ SpinnerOn (u "Generating summary..."); Chat req Failure; SpinnerOff ].

(** What [st.error] showed, in order. *)
Fixpoint errors (log : list Event) : list str :=
  match log with
  | [] => []
  | StError msg :: log' => msg :: errors log'
  | _ :: log' => errors log'
  end.

(** The exchange was answered. *)
Definition answered (x : Request * Reply) : Prop :=
  match snd x with
  | Answer _ => True
  | Failure => False
  end.

(** ** Replies come from the client *)

(** Every exchange among the events [evs], which follow [log], carries the
    reply the client gives to that request on the log as it stood when the
    request was sent. *)
Fixpoint replied (capability : list Event -> Request -> Reply)
  (log evs : list Event) : Prop :=
  match evs with
  | [] => True
  | Chat req rep :: evs' =>
      rep = capability log req /\
      replied capability (log ++ [Chat req rep]) evs'
  | e :: evs' => replied capability (log ++ [e]) evs'
  end.

(** A computation that only extends the log, and logs no exchange but with
    the reply the client gave. *)
Definition honest {A} (capability : list Event -> Request -> Reply)
  (p : Prog A) : Prop :=
  forall log, exists out evs,
    p log = (out, log ++ evs) /\ replied capability log evs.

(** A stand-in for the client that answers every request with its user
    message between two spaces. *)
Definition echo : list Event -> Request -> Reply :=
  fun _ req =>
    Answer (u " " ++ concat (map content (skipn 1 (messages req))) ++ u " ").

(** * Properties *)

(** ** Slices and ranges *)

Lemma len_nonneg {A} (l : list A) : 0 <= len l.
Proof. unfold len. lia. Qed.

Lemma firstn_plus {A} (a b : nat) (l : list A) :
  firstn (a + b) l = firstn a l ++ firstn b (skipn a l).
Proof.
  revert l. induction a as [|a IH]; intros [|x l]; simpl; try reflexivity.
  - now rewrite firstn_nil.
  - now rewrite IH.
Qed.

(** A slice with bounds [0 <= lo <= hi] is [hi - lo] items from offset [lo]. *)
Lemma slice_window {A} (l : list A) (lo hi : Z) :
  0 <= lo -> lo <= hi ->
  slice l lo hi = firstn (Z.to_nat (hi - lo)) (skipn (Z.to_nat lo) l).
Proof.
  intros Hlo Hhi. unfold slice, clamp.
  pose proof (len_nonneg l) as Hn.
  destruct (Z.ltb_spec lo 0); [lia|].
  destruct (Z.ltb_spec hi 0); [lia|].
  destruct (Z.le_gt_cases lo (len l)) as [Hin|Hout].
  - rewrite (Z.min_l lo) by lia.
    destruct (Z.le_gt_cases hi (len l)) as [Hh|Hh].
    + now rewrite (Z.min_l hi) by lia.
    + rewrite (Z.min_r hi) by lia.
      rewrite !firstn_all2; try reflexivity;
        rewrite length_skipn; unfold len in *; lia.
  - rewrite (Z.min_r lo), (Z.min_r hi) by lia.
    rewrite Z.sub_diag. simpl.
    rewrite (skipn_all2 (n := Z.to_nat lo)) by (unfold len in *; lia).
    now rewrite firstn_nil.
Qed.

(** [l[:6]] keeps the first six items. *)
Lemma slice_first_six {A} (l : list A) : slice l 0 6 = firstn 6 l.
Proof.
  rewrite slice_window by lia. simpl skipn.
  reflexivity.
Qed.

Lemma ceil_div_bounds (a b : Z) :
  0 < b -> (ceil_div a b - 1) * b < a <= ceil_div a b * b.
Proof.
  intros Hb. unfold ceil_div.
  pose proof (Z.div_mod (a + b - 1) b ltac:(lia)) as E.
  pose proof (Z.mod_pos_bound (a + b - 1) b Hb) as B.
  nia.
Qed.

Lemma range_from_zero (n step : Z) :
  0 <= n -> 0 < step ->
  range 0 n step =
  Done (map (fun k => Z.of_nat k * step)
                 (seq 0 (Z.to_nat (ceil_div n step)))).
Proof.
  intros Hn Hs. unfold range, ceil_div.
  destruct (Z.eqb_spec step 0); [lia|].
  destruct (Z.ltb_spec 0 step); [|lia].
  f_equal.
  assert (E : (if 0 <? n then (n - 0 - 1) / step + 1 else 0)
              = (n + step - 1) / step).
  { destruct (Z.ltb_spec 0 n).
    - replace (n + step - 1) with ((n - 0 - 1) + 1 * step) by lia.
      now rewrite Z.div_add by lia.
    - assert (n = 0) by lia. subst n. simpl.
      symmetry. apply Z.div_small. lia. }
  rewrite E. apply map_ext. intros k. lia.
Qed.

(** ** The chunker *)

Lemma chunk_text_windows (T : str) (M : Z) :
  0 < M ->
  chunk_text T M =
  Done (windows T (Z.to_nat M) (Z.to_nat (ceil_div (len T) M))).
Proof.
  intros HM. unfold chunk_text, windows.
  rewrite range_from_zero by (auto using len_nonneg).
  f_equal. rewrite map_map. apply map_ext. intros k.
  rewrite slice_window by nia.
  f_equal; [f_equal; lia|f_equal; nia].
Qed.

Lemma windows_length (T : str) (m cnt : nat) :
  length (windows T m cnt) = cnt.
Proof. unfold windows. now rewrite length_map, length_seq. Qed.

Lemma windows_nth (T : str) (m cnt k : nat) (c : str) :
  nth_error (windows T m cnt) k = Some c ->
  (k < cnt)%nat /\ c = firstn m (skipn (k * m) T).
Proof.
  unfold windows. rewrite nth_error_map, nth_error_seq.
  destruct (Nat.ltb_spec k cnt) as [Hk|Hk]; simpl; intros H.
  - split; [exact Hk|]. now inversion H.
  - discriminate H.
Qed.

Lemma windows_concat (T : str) (m cnt : nat) :
  concat (windows T m cnt) = firstn (cnt * m) T.
Proof.
  unfold windows. induction cnt as [|cnt IH].
  - reflexivity.
  - rewrite seq_S, map_app, concat_app, IH. simpl.
    rewrite app_nil_r, <- firstn_plus. f_equal. lia.
Qed.

Lemma window_length (T : str) (m k : nat) :
  ((k + 1) * m <= length T)%nat ->
  length (firstn m (skipn (k * m) T)) = m.
Proof.
  intros H. rewrite length_firstn, length_skipn. lia.
Qed.

Lemma window_substring (T : str) (m off : nat) :
  substring (firstn m (skipn off T)) T.
Proof.
  exists (firstn off T), (skipn m (skipn off T)).
  now rewrite firstn_skipn, firstn_skipn.
Qed.

(** C1: for a positive maximum size [M] the chunker returns chunks whose
    concatenation in order is the text; the [k]-th chunk is the substring of
    [M] characters at offset [k * M]; every chunk but the last has length
    exactly [M] (and none is empty or longer than [M]); their number is
    [ceil (len T / M)], the least [n] with [len T <= n * M]; the empty text
    gives no chunk. *)
Theorem chunk_text_partition (T : str) (M : Z) :
  0 < M ->
  exists chunks,
    chunk_text T M = Done chunks /\
    concat chunks = T /\
    (forall k c, nth_error chunks k = Some c ->
       c = firstn (Z.to_nat M) (skipn (k * Z.to_nat M) T) /\
       substring c T /\ 0 < len c <= M) /\
    (forall k c, nth_error chunks k = Some c ->
       (S k < length chunks)%nat -> len c = M) /\
    len chunks = ceil_div (len T) M /\
    (len chunks - 1) * M < len T <= len chunks * M /\
    (T = [] -> chunks = []).
Proof.
  intros HM.
  pose proof (ceil_div_bounds (len T) M HM) as [Hlo Hhi].
  pose proof (len_nonneg T) as HT.
  assert (Hc : 0 <= ceil_div (len T) M) by nia.
  set (m := Z.to_nat M). set (cnt := Z.to_nat (ceil_div (len T) M)).
  assert (Em : Z.of_nat m = M) by (subst m; lia).
  assert (Ec : Z.of_nat cnt = ceil_div (len T) M) by (subst cnt; lia).
  exists (windows T m cnt).
  split; [now apply chunk_text_windows|].
  split.
  { rewrite windows_concat. apply firstn_all2. unfold len in *. nia. }
  split.
  { intros k c H. apply windows_nth in H as [Hk ->].
    split; [reflexivity|]. split; [apply window_substring|].
    unfold len in *. rewrite length_firstn, length_skipn. nia. }
  split.
  { intros k c H Hlast. rewrite windows_length in Hlast.
    apply windows_nth in H as [Hk ->].
    unfold len in *. rewrite window_length; [assumption|]. nia. }
  split; [unfold len; now rewrite windows_length|].
  split; [unfold len in *; rewrite windows_length; lia|].
  intros ->. unfold len in *. simpl in *.
  assert (cnt = 0%nat) by nia. subst cnt. now rewrite H.
Qed.

Lemma chunk_text_partition_witness :
  exists chunks,
    chunk_text (u "Hello world.") 5 = Done chunks /\
    concat chunks = u "Hello world." /\
    (forall k c, nth_error chunks k = Some c ->
       c = firstn (Z.to_nat 5) (skipn (k * Z.to_nat 5) (u "Hello world.")) /\
       substring c (u "Hello world.") /\ 0 < len c <= 5) /\
    (forall k c, nth_error chunks k = Some c ->
       (S k < length chunks)%nat -> len c = 5) /\
    len chunks = ceil_div (len (u "Hello world.")) 5 /\
    (len chunks - 1) * 5 < len (u "Hello world.") <= len chunks * 5 /\
    (u "Hello world." = [] -> chunks = []).
Proof.
  apply (chunk_text_partition (u "Hello world.") 5). reflexivity.
Defined.

Example chunk_text_hello :
  chunk_text (u "Hello world.") 5 = Done [u "Hello"; u " worl"; u "d."].
Proof. reflexivity. Qed.

(** A zero [max_chars] makes [range] raise, and a negative one gives no
    chunk at all: the partition property needs [0 < M]. *)
Example chunk_text_zero_step :
  chunk_text (u "Hello world.") 0 = Raised ValueError.
Proof. reflexivity. Qed.

Example chunk_text_negative_step :
  chunk_text (u "Hello world.") (-4) = Done [].
Proof. reflexivity. Qed.

(** C8: at its default maximum size the chunker is total and pure: for every
    string it returns a list of chunks, never an exception, and calling it
    leaves the event log as it was. *)
Theorem chunk_text_total (text : str) :
  exists chunks,
    chunk_text text max_chars_default = Done chunks /\
    forall log, lift (chunk_text text max_chars_default) log = (Done chunks, log).
Proof.
  exists (windows text (Z.to_nat max_chars_default)
            (Z.to_nat (ceil_div (len text) max_chars_default))).
  assert (E : chunk_text text max_chars_default =
              Done (windows text (Z.to_nat max_chars_default)
                      (Z.to_nat (ceil_div (len text) max_chars_default))))
    by (apply chunk_text_windows; reflexivity).
  split; [exact E|].
  intros log. unfold lift. now rewrite E.
Qed.

(** ** Stripping *)

Lemma lstrip_split (s : str) : exists ws, s = ws ++ lstrip s /\ blank ws.
Proof.
  induction s as [|c s [ws [E B]]]; simpl.
  - exists []. split; [reflexivity|constructor].
  - destruct (isspace c) eqn:Hc.
    + exists (c :: ws). split; [simpl; now f_equal|now constructor].
    + exists []. split; [reflexivity|constructor].
Qed.

Lemma lstrip_clean (s : str) : no_leading_space (lstrip s).
Proof.
  induction s as [|c s IH]; simpl; [exact I|].
  destruct (isspace c) eqn:Hc; [exact IH|exact Hc].
Qed.

Lemma lstrip_blank (s : str) : blank s -> lstrip s = [].
Proof.
  induction 1 as [|c s Hc _ IH]; simpl; [reflexivity|].
  now rewrite Hc.
Qed.

Lemma blank_rev (s : str) : blank s -> blank (rev s).
Proof. apply Forall_rev. Qed.

Lemma rstrip_split (s : str) : exists ws, s = rstrip s ++ ws /\ blank ws.
Proof.
  destruct (lstrip_split (rev s)) as [ws [E B]].
  exists (rev ws). split; [|now apply blank_rev].
  unfold rstrip. rewrite <- rev_app_distr, <- E. now rewrite rev_involutive.
Qed.

(** What [strip] removes is whitespace on the two sides, nothing else. *)
Lemma strip_split (s : str) :
  exists l r, s = l ++ strip s ++ r /\ blank l /\ blank r.
Proof.
  destruct (lstrip_split s) as [l [El Bl]].
  destruct (rstrip_split (lstrip s)) as [r [Er Br]].
  exists l, r. unfold strip. now rewrite <- Er.
Qed.

(** What [strip] keeps neither starts nor ends with whitespace. *)
Lemma strip_clean (s : str) :
  no_leading_space (strip s) /\ no_trailing_space (strip s).
Proof.
  split.
  - destruct (rstrip_split (lstrip s)) as [r [Er _]].
    pose proof (lstrip_clean s) as Hc. fold (strip s) in Er.
    rewrite Er in Hc. destruct (strip s); [exact I|exact Hc].
  - unfold no_trailing_space, strip, rstrip.
    rewrite rev_involutive. apply lstrip_clean.
Qed.

Lemma strip_blank (s : str) : blank s -> strip s = [].
Proof.
  intros B. unfold strip. now rewrite (lstrip_blank s B).
Qed.

Lemma strip_empty_blank (s : str) : strip s = [] -> blank s.
Proof.
  intros E. destruct (strip_split s) as [l [r [Es [Bl Br]]]].
  rewrite E in Es. subst s. apply Forall_app. now split.
Qed.

Example strip_example :
  strip (u "  key ideas " ++ nl) = u "key ideas".
Proof. reflexivity. Qed.

(** ** The combiner *)

Lemma join_snoc (sep : str) (parts : list str) (p : str) :
  parts <> [] -> join sep (parts ++ [p]) = join sep parts ++ sep ++ p.
Proof.
  induction parts as [|q parts IH]; intros Hne; [congruence|].
  destruct parts as [|q' parts]; [reflexivity|].
  change (join sep ((q :: q' :: parts) ++ [p]))
    with (q ++ sep ++ join sep ((q' :: parts) ++ [p])).
  rewrite IH by discriminate.
  change (join sep (q :: q' :: parts)) with (q ++ sep ++ join sep (q' :: parts)).
  now rewrite <- !app_assoc.
Qed.

(** C5: the combiner joins the partial summaries with newlines, in order:
    nothing gives the empty string, [a; b; c] gives a, newline, b, newline,
    c, and one more summary adds a newline and that summary at the end. *)
Theorem combined_text_join :
  combined_text [] = [] /\
  (forall a b c, combined_text [a; b; c] = a ++ nl ++ b ++ nl ++ c) /\
  (forall a, combined_text [a] = a) /\
  (forall ps p, ps <> [] ->
     combined_text (ps ++ [p]) = combined_text ps ++ nl ++ p) /\
  combined_text [u "a"; u "b"; u "c"] = [97; 10; 98; 10; 99]%N.
Proof.
  split; [reflexivity|].
  split; [reflexivity|].
  split; [reflexivity|].
  split; [|reflexivity].
  intros ps p Hne. unfold combined_text. now apply join_snoc.
Qed.

(** ** Mode dispatch *)

Lemma str_eqb_eq (a b : str) : str_eqb a b = true <-> a = b.
Proof.
  revert b. induction a as [|x a IH]; intros [|y b]; simpl;
    try (split; [discriminate|congruence]); [tauto|].
  rewrite andb_true_iff, N.eqb_eq, IH.
  split; [intros [-> ->]; reflexivity|intros H; now inversion H].
Qed.

Lemma str_eqb_neq (a b : str) : a <> b -> str_eqb a b = false.
Proof.
  intros H. destruct (str_eqb a b) eqn:E; [|reflexivity].
  now apply str_eqb_eq in E.
Qed.

Lemma summary_mode_cases (summary_type : str) :
  In (summary_mode summary_type)
     [(short_prompt, 170); (topic_prompt, 600); (bullet_prompt, 300)].
Proof.
  unfold summary_mode.
  destruct (str_eqb summary_type short_label); [now left|].
  destruct (str_eqb summary_type topic_label); [right; now left|].
  right; right; now left.
Qed.

Lemma reduce_request_fields (summary_type combined : str) :
  reduce_request summary_type combined =
  {| model := MODEL;
     messages :=
       [ {| role := u "system"; content := fst (summary_mode summary_type) |};
         {| role := u "user"; content := combined |} ];
     max_tokens := snd (summary_mode summary_type) |}.
Proof.
  unfold reduce_request. now destruct (summary_mode summary_type).
Qed.

(** C3: each of the three labels of the selector gives exactly its own
    budget and prompt in the reduce request: 170 and the prompt asking for
    one short paragraph, 600 and the prompt asking for topic headings, 300
    and the prompt asking for bullet points; the three prompts differ. *)
Theorem summary_mode_labels (combined : str) :
  let request prompt budget :=
    {| model := MODEL;
       messages := [ {| role := u "system"; content := prompt |};
                     {| role := u "user"; content := combined |} ];
       max_tokens := budget |} in
  (reduce_request (u "Short Summary (Recommended)") combined
     = request short_prompt 170 /\
   reduce_request (u "Topic-wise Summary") combined
     = request topic_prompt 600 /\
   reduce_request (u "Bullet-point Summary") combined
     = request bullet_prompt 300) /\
  (substring (u "- One short paragraph") short_prompt /\
   substring (u "- Use clear topic headings") topic_prompt /\
   substring (u "- 8" ++ en_dash ++ u "12 bullet points") bullet_prompt) /\
  (short_prompt <> topic_prompt /\ short_prompt <> bullet_prompt /\
   topic_prompt <> bullet_prompt).
Proof.
  split; [repeat split; reflexivity|].
  split; [|repeat split; discriminate].
  split; [|split].
  - exists (firstn 50 short_prompt), (skipn 71 short_prompt). reflexivity.
  - exists (firstn 38 topic_prompt), (skipn 64 topic_prompt). reflexivity.
  - exists (firstn 40 bullet_prompt), (skipn 60 bullet_prompt). reflexivity.
Qed.

Lemma combined_text_join_witness :
  combined_text ([u "a"; u "b"] ++ [u "c"])
  = combined_text [u "a"; u "b"] ++ nl ++ u "c".
Proof.
  apply (proj1 (proj2 (proj2 (proj2 combined_text_join)))). discriminate.
Defined.

(** C9: the dispatch has the bullet-point mode as its default: every label
    other than the short and the topic-wise one, whatever it is, gives the
    bullet-point prompt and the budget 300. *)
Theorem summary_mode_default (summary_type combined : str) :
  summary_type <> u "Short Summary (Recommended)" ->
  summary_type <> u "Topic-wise Summary" ->
  summary_mode summary_type = (bullet_prompt, 300) /\
  reduce_request summary_type combined =
  {| model := MODEL;
     messages := [ {| role := u "system"; content := bullet_prompt |};
                   {| role := u "user"; content := combined |} ];
     max_tokens := 300 |}.
Proof.
  intros Hs Ht.
  assert (E : summary_mode summary_type = (bullet_prompt, 300)).
  { unfold summary_mode.
    now rewrite (str_eqb_neq summary_type short_label Hs),
      (str_eqb_neq summary_type topic_label Ht). }
  split; [exact E|].
  rewrite reduce_request_fields. now rewrite E.
Qed.

Lemma summary_mode_default_witness :
  summary_mode (u "Key points") = (bullet_prompt, 300) /\
  reduce_request (u "Key points") (u "x") =
  {| model := MODEL;
     messages := [ {| role := u "system"; content := bullet_prompt |};
                   {| role := u "user"; content := u "x" |} ];
     max_tokens := 300 |}.
Proof.
  apply (summary_mode_default (u "Key points") (u "x")); discriminate.
Defined.

(** ** Logs *)

Lemma chats_app (a b : list Event) : chats (a ++ b) = chats a ++ chats b.
Proof.
  induction a as [|e a IH]; simpl; [reflexivity|].
  destruct e; simpl; now rewrite ?IH.
Qed.

Lemma requests_app (a b : list Event) :
  requests (a ++ b) = requests a ++ requests b.
Proof. unfold requests. now rewrite chats_app, map_app. Qed.

Lemma answers_app (a b : list Event) :
  answers (a ++ b) = answers a ++ answers b.
Proof.
  induction a as [|e a IH]; simpl; [reflexivity|].
  destruct e as [req [s|]| | | | | |]; simpl; now rewrite ?IH.
Qed.

Lemma displayed_app (a b : list Event) :
  displayed (a ++ b) = displayed a ++ displayed b.
Proof.
  induction a as [|e a IH]; simpl; [reflexivity|].
  destruct e; simpl; now rewrite ?IH.
Qed.

(** The events of chunks the client answered, one after the other. *)
Lemma chats_answered (pairs : list (str * str)) :
  chats (map (fun ca => Chat (map_request (fst ca)) (Answer (snd ca))) pairs)
  = map map_exchange pairs.
Proof.
  induction pairs as [|p pairs IH]; simpl; [reflexivity|now rewrite IH].
Qed.

Lemma answers_answered (pairs : list (str * str)) :
  answers (map (fun ca => Chat (map_request (fst ca)) (Answer (snd ca))) pairs)
  = map snd pairs.
Proof.
  induction pairs as [|p pairs IH]; simpl; [reflexivity|now rewrite IH].
Qed.

Lemma combine_fst {A B} (l : list A) (l' : list B) :
  length l' = length l -> map fst (combine l l') = l.
Proof.
  revert l'. induction l as [|x l IH]; intros [|y l'] H; simpl in *;
    try reflexivity; try discriminate.
  f_equal. apply IH. now inversion H.
Qed.

Lemma combine_snd {A B} (l : list A) (l' : list B) :
  length l' = length l -> map snd (combine l l') = l'.
Proof.
  revert l'. induction l as [|x l IH]; intros [|y l'] H; simpl in *;
    try reflexivity; try discriminate.
  f_equal. apply IH. now inversion H.
Qed.

(** ** Replies in the log are the client's *)

Lemma replied_app (capability : list Event -> Request -> Reply)
  (a b : list Event) : forall log,
  replied capability log (a ++ b) <->
  replied capability log a /\ replied capability (log ++ a) b.
Proof.
  induction a as [|e a IH]; intros log; simpl.
  - rewrite app_nil_r. tauto.
  - assert (E : log ++ e :: a = (log ++ [e]) ++ a)
      by now rewrite <- app_assoc.
    rewrite E. destruct e; rewrite IH; tauto.
Qed.

(** The reply of the [k]-th exchange is the client's, on the log before it. *)
Lemma replied_chat (capability : list Event -> Request -> Reply)
  (evs : list Event) : forall log k req rep,
  replied capability log evs ->
  nth_error (chats evs) k = Some (req, rep) ->
  exists pre post,
    evs = pre ++ Chat req rep :: post /\
    rep = capability (log ++ pre) req.
Proof.
  induction evs as [|e evs IH]; intros log k req rep Hrep Hnth.
  - destruct k; discriminate.
  - assert (Hrest : forall k', replied capability (log ++ [e]) evs ->
              nth_error (chats evs) k' = Some (req, rep) ->
              exists pre post,
                e :: evs = pre ++ Chat req rep :: post /\
                rep = capability (log ++ pre) req).
    { intros k' Hr Hn. destruct (IH _ _ _ _ Hr Hn) as (pre & post & -> & E).
      exists (e :: pre), post. split; [reflexivity|].
      now rewrite <- app_assoc in E. }
    destruct e as [r p| | | | | |]; simpl in Hrep, Hnth;
      try (exact (Hrest k Hrep Hnth)).
    destruct Hrep as [Hp Hrep]. destruct k as [|k]; simpl in Hnth.
    + inversion Hnth; subst r p. exists [], evs.
      split; [reflexivity|]. now rewrite app_nil_r.
    + exact (Hrest k Hrep Hnth).
Qed.

Section Honest.

Variable capability : list Event -> Request -> Reply.

Lemma honest_ret {A} (a : A) : honest capability (ret a).
Proof. intros log. exists (Done a), []. now rewrite app_nil_r. Qed.

Lemma honest_lift {A} (r : Result A) : honest capability (lift r).
Proof. intros log. exists r, []. unfold lift. now rewrite app_nil_r. Qed.

Lemma honest_st_error (msg : str) : honest capability (st_error msg).
Proof. intros log. now exists (Done tt), [StError msg]. Qed.

Lemma honest_st_success (msg : str) : honest capability (st_success msg).
Proof. intros log. now exists (Done tt), [StSuccess msg]. Qed.

Lemma honest_st_subheader (msg : str) : honest capability (st_subheader msg).
Proof. intros log. now exists (Done tt), [StSubheader msg]. Qed.

Lemma honest_st_markdown (body : str) : honest capability (st_markdown body).
Proof. intros log. now exists (Done tt), [StMarkdown body]. Qed.

Lemma honest_chat (req : Request) : honest capability (chat capability req).
Proof.
  intros log. unfold chat.
  destruct (capability log req) as [s|] eqn:E.
  - exists (Done s), [Chat req (Answer s)]. simpl. now rewrite E.
  - exists (Raised CapabilityFailure), [Chat req Failure]. simpl.
    now rewrite E.
Qed.

Lemma honest_bind {A B} (m : Prog A) (k : A -> Prog B) :
  honest capability m -> (forall a, honest capability (k a)) ->
  honest capability (bind m k).
Proof.
  intros Hm Hk log. unfold bind.
  destruct (Hm log) as (out & evs & -> & R).
  destruct out as [a|e].
  - destruct (Hk a (log ++ evs)) as (out' & evs' & -> & R').
    exists out', (evs ++ evs'). rewrite app_assoc.
    split; [reflexivity|]. apply replied_app. now split.
  - now exists (Raised e), evs.
Qed.

Lemma honest_with_spinner {A} (msg : str) (body : Prog A) :
  honest capability body -> honest capability (with_spinner msg body).
Proof.
  intros Hb log. unfold with_spinner.
  destruct (Hb (log ++ [SpinnerOn msg])) as (out & evs & -> & R).
  exists out, (SpinnerOn msg :: evs ++ [SpinnerOff]).
  split; [f_equal; now rewrite <- !app_assoc|].
  simpl. apply replied_app. now split.
Qed.

Lemma honest_map_loop (chunks : list str) : forall acc,
  honest capability (map_loop capability chunks acc).
Proof.
  induction chunks as [|chunk rest IH]; intros acc; simpl.
  - apply honest_ret.
  - apply honest_bind; [apply honest_chat|]. intros res. apply IH.
Qed.

Lemma honest_map_stage (chunks : list str) :
  honest capability (map_stage capability chunks).
Proof. apply honest_with_spinner, honest_map_loop. Qed.

Lemma honest_reduce_stage (summary_type combined : str) :
  honest capability (reduce_stage capability summary_type combined).
Proof.
  unfold reduce_stage.
  apply honest_bind; [apply honest_with_spinner, honest_chat|]. intros final.
  apply honest_bind; [apply honest_st_success|]. intros _.
  apply honest_bind; [apply honest_st_subheader|]. intros _.
  apply honest_st_markdown.
Qed.

Lemma honest_summarize (text summary_type : str) :
  honest capability (summarize capability text summary_type).
Proof.
  unfold summarize.
  apply honest_bind; [apply honest_lift|]. intros chunks.
  apply honest_bind; [apply honest_map_stage|]. intros ps.
  apply honest_reduce_stage.
Qed.

(** The events a run appends carry the client's replies. *)
Lemma replied_of_run {A} (p : Prog A) (log evs : list Event)
  (out : Result A) :
  honest capability p -> p log = (out, log ++ evs) ->
  replied capability log evs.
Proof.
  intros H E. destruct (H log) as (out' & evs' & E' & R).
  rewrite E in E'. injection E' as _ El.
  apply app_inv_head in El. now subst evs'.
Qed.

End Honest.

(** ** The map step *)

Section MapStep.

Variable capability : list Event -> Request -> Reply.

(** One run of the loop: it only talks to the client, for a prefix of the
    chunks in their order; when it returns, every chunk was answered and the
    summaries are the stripped answers; it returns when no request fails. *)
Lemma map_loop_run (chunks : list str) : forall acc log,
  exists out evs,
    map_loop capability chunks acc log = (out, log ++ evs) /\
    (exists n, (n <= length chunks)%nat /\
       requests evs = map map_request (firstn n chunks)) /\
    (forall ps, out = Done ps ->
       exists texts,
         length texts = length chunks /\
         evs = map (fun ca => Chat (map_request (fst ca)) (Answer (snd ca)))
                   (combine chunks texts) /\
         ps = acc ++ map strip texts) /\
    (never_fails capability -> exists ps, out = Done ps).
Proof.
  induction chunks as [|chunk rest IH]; intros acc log.
  - exists (Done acc), []. simpl. unfold ret. rewrite app_nil_r.
    split; [reflexivity|]. split; [exists 0%nat; split; [lia|reflexivity]|].
    split; [|intros _; now exists acc].
    intros ps H. inversion H; subst. exists []. now rewrite app_nil_r.
  - simpl. unfold bind, chat.
    destruct (capability log (map_request chunk)) as [s|] eqn:Hrep.
    + destruct (IH (acc ++ [strip s])
                   (log ++ [Chat (map_request chunk) (Answer s)]))
        as (out & evs & Hrun & (n & Hn & Hreq) & Hdone & Hlive).
      exists out, (Chat (map_request chunk) (Answer s) :: evs).
      split; [rewrite Hrun; now rewrite <- app_assoc|].
      split.
      { exists (S n). split; [simpl; lia|].
        unfold requests in *. simpl. now rewrite Hreq. }
      split; [|exact Hlive].
      intros ps H. destruct (Hdone ps H) as (texts & Hlen & Hevs & Hps).
      exists (s :: texts). simpl. rewrite Hlen, Hevs, Hps.
      split; [reflexivity|]. split; [reflexivity|].
      now rewrite <- app_assoc.
    + exists (Raised CapabilityFailure), [Chat (map_request chunk) Failure].
      split; [reflexivity|].
      split; [exists 1%nat; split; [simpl; lia|reflexivity]|].
      split; [discriminate|].
      intros Hnf. exfalso. exact (Hnf _ _ Hrep).
Qed.

(** The same for the step as a whole, which looks at six chunks at most. *)
Lemma map_stage_run (chunks : list str) (log : list Event) :
  exists out evs,
    map_stage capability chunks log = (out, log ++ evs) /\
    (exists n, (n <= Nat.min (length chunks) 6)%nat /\
       requests evs = map map_request (firstn n chunks)) /\
    (forall ps, out = Done ps ->
       exists texts,
         length texts = Nat.min (length chunks) 6 /\
         chats evs = map map_exchange (combine (firstn 6 chunks) texts) /\
         answers evs = texts /\
         ps = map strip texts) /\
    (never_fails capability -> exists ps, out = Done ps).
Proof.
  unfold map_stage, with_spinner. rewrite slice_first_six.
  destruct (map_loop_run (firstn 6 chunks) []
              (log ++ [SpinnerOn (u "Reading document...")]))
    as (out & evs & Hrun & (n & Hn & Hreq) & Hdone & Hlive).
  rewrite Hrun.
  exists out, (SpinnerOn (u "Reading document...") :: evs ++ [SpinnerOff]).
  split; [f_equal; now rewrite <- !app_assoc|].
  rewrite length_firstn in Hn.
  split.
  { exists n. split; [lia|].
    change (SpinnerOn (u "Reading document...") :: evs ++ [SpinnerOff])
      with ([SpinnerOn (u "Reading document...")] ++ evs ++ [SpinnerOff]).
    rewrite !requests_app, Hreq, firstn_firstn.
    replace (Nat.min n 6) with n by lia.
    unfold requests. simpl. now rewrite app_nil_r. }
  split; [|exact Hlive].
  intros ps H. destruct (Hdone ps H) as (texts & Hlen & Hevs & Hps).
  pose proof Hlen as Hlen'. rewrite length_firstn in Hlen.
  exists texts. split; [lia|].
  change (SpinnerOn (u "Reading document...") :: evs ++ [SpinnerOff])
    with ([SpinnerOn (u "Reading document...")] ++ evs ++ [SpinnerOff]).
  rewrite !chats_app, !answers_app, Hevs, chats_answered, answers_answered.
  simpl. rewrite !app_nil_r.
  split; [reflexivity|]. split; [|exact Hps].
  apply combine_snd. exact Hlen'.
Qed.

End MapStep.

Lemma nth_error_combine_some {A B} (l : list A) (l' : list B) k a :
  length l' = length l -> nth_error l k = Some a ->
  exists b, nth_error l' k = Some b /\ nth_error (combine l l') k = Some (a, b).
Proof.
  revert l' k. induction l as [|x l IH]; intros [|y l'] [|k] Hlen H;
    simpl in *; try discriminate.
  - inversion H; subst. now exists y.
  - apply IH; [now inversion Hlen|exact H].
Qed.

Lemma in_firstn {A} (n : nat) (l : list A) (x : A) :
  In x (firstn n l) -> In x l.
Proof.
  intros H. rewrite <- (firstn_skipn n l). apply in_or_app. now left.
Qed.



(** Ten chunks: six requests, for the first six chunks. *)
Example map_stage_ten_chunks :
  let chunks := map (fun k => [N.of_nat k]) (seq 65 10) in
  requests (snd (map_stage (canned (u "ok")) chunks []))
  = map map_request (firstn 6 chunks).
Proof. reflexivity. Qed.

(** A failing request ends the step at once: one request, not two. *)
Example map_stage_fail_fast :
  map_stage unreachable [u "one"; u "two"] []
  = (Raised CapabilityFailure,
     [ SpinnerOn (u "Reading document...");
       Chat (map_request (u "one")) Failure;
       SpinnerOff ]).
Proof. reflexivity. Qed.

(** C7, as the code has it: every request of the map step carries the
    system instruction [Extract only key ideas. No explanations.], one of
    the first six chunks as the user message, and the budget 120. *)
Theorem map_request_parameters
  (capability : list Event -> Request -> Reply)
  (chunks : list str) (log : list Event)
  (out : Result (list str)) (evs : list Event) (req : Request) :
  map_stage capability chunks log = (out, log ++ evs) ->
  In req (requests evs) ->
  exists chunk,
    In chunk (firstn 6 chunks) /\
    req =
    {| model := MODEL;
       messages :=
         [ {| role := u "system";
              content := u "Extract only key ideas. No explanations." |};
           {| role := u "user"; content := chunk |} ];
       max_tokens := 120 |}.
Proof.
  intros Hrun Hin.
  destruct (map_stage_run capability chunks log)
    as (out' & evs' & Hrun' & (n & Hn & Hreq) & _).
  rewrite Hrun in Hrun'. inversion Hrun' as [[Hout Hevs]].
  apply app_inv_head in Hevs. subst evs'.
  rewrite Hreq in Hin. apply in_map_iff in Hin as (chunk & <- & Hchunk).
  exists chunk. split; [|reflexivity].
  replace n with (Nat.min n 6) in Hchunk by lia.
  rewrite <- firstn_firstn in Hchunk. exact (in_firstn _ _ _ Hchunk).
Qed.

Lemma map_request_parameters_witness :
  exists chunk,
    In chunk (firstn 6 [u "Hello world."]) /\
    map_request (u "Hello world.") =
    {| model := MODEL;
       messages :=
         [ {| role := u "system";
              content := u "Extract only key ideas. No explanations." |};
           {| role := u "user"; content := chunk |} ];
       max_tokens := 120 |}.
Proof.
  apply (map_request_parameters (canned (u "ok")) [u "Hello world."] []
           (Done [u "ok"])
           [ SpinnerOn (u "Reading document...");
             Chat (map_request (u "Hello world.")) (Answer (u "ok"));
             SpinnerOff ]).
  - reflexivity.
  - left. reflexivity.
Defined.

(** C7, as the specification words it, fails: the request the map step sends
    for the chunk [Hello world.] does not carry the instruction in the
    specification's spelling. *)
Lemma map_request_instruction_counterexample :
  exists req,
    requests (snd (map_stage (canned (u "ok")) [u "Hello world."] [])) = [req] /\
    ~ (messages req =
         [ {| role := u "system"; content := spec_map_instruction |};
           {| role := u "user"; content := u "Hello world." |} ] /\
       max_tokens req = 120).
Proof.
  exists (map_request (u "Hello world.")).
  split; [reflexivity|].
  intros [H _]. discriminate H.
Qed.

(** C10: each answer of the map step is stripped on its own before it is
    collected.  Every reply in the log is the one the client gave to that
    request; when the step returns, the requests were those of the first six
    chunks, each was answered, the [k]-th partial summary is the client's
    answer to the request for the [k]-th chunk, stripped, the combined text
    is the newline-join of these stripped answers, and no summary starts or
    ends with whitespace. *)
Theorem partial_summaries_stripped
  (capability : list Event -> Request -> Reply)
  (chunks : list str) (log : list Event) :
  exists out evs,
    map_stage capability chunks log = (out, log ++ evs) /\
    replied capability log evs /\
    (forall ps, out = Done ps ->
       requests evs = map map_request (firstn 6 chunks) /\
       length (answers evs) = length (requests evs) /\
       ps = map strip (answers evs) /\
       combined_text ps = join nl (map strip (answers evs)) /\
       Forall (fun p => no_leading_space p /\ no_trailing_space p) ps /\
       (forall k chunk, nth_error (firstn 6 chunks) k = Some chunk ->
          exists before text,
            capability (log ++ before) (map_request chunk) = Answer text /\
            nth_error ps k = Some (strip text))) /\
    (never_fails capability -> exists ps, out = Done ps).
Proof.
  destruct (map_stage_run capability chunks log)
    as (out & evs & Hrun & _ & Hdone & Hlive).
  pose proof (replied_of_run capability _ log evs out
                (honest_map_stage capability chunks) Hrun) as Hrep.
  exists out, evs. split; [exact Hrun|]. split; [exact Hrep|].
  split; [|exact Hlive].
  intros ps H.
  destruct (Hdone ps H) as (texts & Hlen & Hchats & Hans & Hps).
  assert (Hlen6 : length texts = length (firstn 6 chunks))
    by (rewrite length_firstn; lia).
  rewrite Hans. subst ps.
  split.
  { unfold requests. rewrite Hchats, map_map. simpl.
    rewrite <- (map_map fst map_request). now rewrite combine_fst. }
  split.
  { unfold requests. rewrite Hchats, !length_map, length_combine.
    rewrite length_firstn. lia. }
  split; [reflexivity|]. split; [reflexivity|].
  split.
  { apply Forall_forall. intros p Hp.
    apply in_map_iff in Hp as (t & <- & _). apply strip_clean. }
  intros k chunk Hnth.
  destruct (nth_error_combine_some _ texts k chunk Hlen6 Hnth)
    as (text & Htext & Hpair).
  assert (Hchat : nth_error (chats evs) k
                  = Some (map_request chunk, Answer text)).
  { rewrite Hchats, nth_error_map, Hpair. reflexivity. }
  destruct (replied_chat capability evs log k _ _ Hrep Hchat)
    as (before & after & _ & Hcap).
  exists before, text. split; [now symmetry|].
  rewrite nth_error_map, Htext. reflexivity.
Qed.

Lemma partial_summaries_stripped_witness :
  exists ps,
    fst (map_stage echo [u "one"; u "two"] []) = Done ps /\
    combined_text ps = u "one" ++ nl ++ u "two".
Proof.
  destruct (partial_summaries_stripped echo [u "one"; u "two"] [])
    as (out & evs & Hrun & _ & Hdone & Hlive).
  destruct Hlive as [ps Hps]; [intros l r; discriminate|].
  exists ps. rewrite Hrun. split; [exact Hps|].
  destruct (Hdone ps Hps) as (_ & _ & _ & -> & _).
  inversion Hrun as [[Hout Hevs]]. subst evs. reflexivity.
Defined.

(** ** The guard *)

(** C4: when extraction gives no text, or only blank text, the run shows
    the error [Unsupported or empty file.], shows nothing else, sends no
    request to the language model and ends normally. *)
Theorem empty_extraction_halts
  (capability : list Event -> Request -> Reply)
  (text : option str) (summary_type : str) (log : list Event) :
  absent_or_blank text ->
  exists evs,
    generate_summary capability text summary_type log = (Done tt, log ++ evs) /\
    evs = [StError (u "Unsupported or empty file.")] /\
    requests evs = [].
Proof.
  intros H. exists [StError (u "Unsupported or empty file.")].
  split; [|split; reflexivity].
  destruct text as [t|]; simpl; [|reflexivity].
  rewrite (strip_blank t H). simpl. rewrite orb_true_r. reflexivity.
Qed.

Lemma empty_extraction_halts_witness :
  exists evs,
    generate_summary (canned (u "ok")) (Some (u "  " ++ nl)) short_label []
    = (Done tt, [] ++ evs) /\
    evs = [StError (u "Unsupported or empty file.")] /\
    requests evs = [].
Proof.
  apply (empty_extraction_halts (canned (u "ok")) (Some (u "  " ++ nl))
           short_label []).
  simpl. repeat constructor.
Defined.

(** Text that is not blank passes the guard. *)
Lemma guard_passes (capability : list Event -> Request -> Reply)
  (t summary_type : str) :
  ~ blank t ->
  generate_summary capability (Some t) summary_type
  = summarize capability t summary_type.
Proof.
  intros H. simpl.
  destruct t as [|c t]; [exfalso; apply H; constructor|].
  destruct (strip (c :: t)) eqn:E; [|reflexivity].
  exfalso. apply H. now apply strip_empty_blank.
Qed.

(** ** The reduce step *)

(** C6: the reduce step sends exactly one request, with the prompt and the
    budget of the selected mode (one of the three fixed pairs) and the
    combined text as the user message; the reply is what the client gives to
    that request; what is displayed is that reply's text, stripped, and
    nothing when the request fails. *)
Theorem reduce_stage_single_request
  (capability : list Event -> Request -> Reply)
  (summary_type combined : str) (log : list Event) :
  let req :=
    {| model := MODEL;
       messages :=
         [ {| role := u "system";
              content := fst (summary_mode summary_type) |};
           {| role := u "user"; content := combined |} ];
       max_tokens := snd (summary_mode summary_type) |} in
  exists out reply evs,
    reduce_stage capability summary_type combined log = (out, log ++ evs) /\
    reply = capability (log ++ [SpinnerOn (u "Generating summary...")]) req /\
    chats evs = [(req, reply)] /\
    In (summary_mode summary_type)
       [(short_prompt, 170); (topic_prompt, 600); (bullet_prompt, 300)] /\
    match reply with
    | Answer text => out = Done tt /\ displayed evs = [strip text]
    | Failure => out = Raised CapabilityFailure /\ displayed evs = []
    end.
Proof.
  intros req.
  unfold reduce_stage, bind, with_spinner, chat.
  rewrite reduce_request_fields. fold req.
  set (log1 := log ++ [SpinnerOn (u "Generating summary...")]).
  destruct (capability log1 req) as [text|] eqn:Hrep.
  - exists (Done tt), (Answer text),
      [ SpinnerOn (u "Generating summary...");
        Chat req (Answer text);
        SpinnerOff;
        StSuccess (u "Summary Generated");
        StSubheader (u "Summary");
        StMarkdown (strip text) ].
    split.
    { unfold st_success, st_subheader, st_markdown, emit, log1.
      f_equal. now rewrite <- !app_assoc. }
    split; [reflexivity|].
    split; [reflexivity|]. split; [apply summary_mode_cases|].
    split; reflexivity.
  - exists (Raised CapabilityFailure), Failure,
      [ SpinnerOn (u "Generating summary...");
        Chat req Failure;
        SpinnerOff ].
    split; [unfold log1; f_equal; now rewrite <- !app_assoc|].
    split; [reflexivity|].
    split; [reflexivity|]. split; [apply summary_mode_cases|].
    split; reflexivity.
Qed.

(** The reply decides what is displayed: two clients, two summaries. *)
Example reduce_stage_follows_client :
  displayed (snd (reduce_stage (canned (u " Final summary. ")) short_label
                    (u "ideas") []))
  = [u "Final summary."] /\
  displayed (snd (reduce_stage echo short_label (u "ideas") []))
  = [u "ideas"].
Proof. split; reflexivity. Qed.

(** ** A whole run *)

(** A text of twelve characters: one chunk, one map request, one reduce
    request over the single partial summary, and the summary displayed. *)
Example generate_summary_hello :
  generate_summary (canned (u " ok ")) (Some (u "Hello world.")) short_label []
  = (Done tt,
     [ SpinnerOn (u "Reading document...");
       Chat (map_request (u "Hello world.")) (Answer (u " ok "));
       SpinnerOff;
       SpinnerOn (u "Generating summary...");
       Chat (reduce_request short_label (u "ok")) (Answer (u " ok "));
       SpinnerOff;
       StSuccess (u "Summary Generated");
       StSubheader (u "Summary");
       StMarkdown (u "ok") ]).
Proof. vm_compute. reflexivity. Qed.

(** * Further properties of the code *)

(** ** The chunker at its edges *)

(** [chunk_text] with a maximum size that is not positive: zero raises the
    [ValueError] of [range], and a negative size gives no chunk at all,
    whatever the text. *)
Theorem chunk_text_nonpositive (text : str) (max_chars : Z) :
  max_chars <= 0 ->
  chunk_text text max_chars
  = if max_chars =? 0 then Raised ValueError else Done [].
Proof.
  intros H. unfold chunk_text, range.
  destruct (Z.eqb_spec max_chars 0); [reflexivity|].
  destruct (Z.ltb_spec 0 max_chars); [lia|].
  pose proof (len_nonneg text).
  destruct (Z.ltb_spec (len text) 0); [lia|]. reflexivity.
Qed.

Lemma chunk_text_nonpositive_witness :
  chunk_text (u "Hello world.") (-3)
  = if -3 =? 0 then Raised ValueError else Done [].
Proof.
  apply (chunk_text_nonpositive (u "Hello world.") (-3)). vm_compute.
  discriminate.
Defined.

(** A text that is not empty and no longer than the maximum size is its own
    single chunk. *)
Theorem chunk_text_short (text : str) (max_chars : Z) :
  0 < len text <= max_chars ->
  chunk_text text max_chars = Done [text].
Proof.
  intros [Hpos Hle]. rewrite chunk_text_windows by lia.
  assert (E : ceil_div (len text) max_chars = 1).
  { unfold ceil_div.
    replace (len text + max_chars - 1)
      with ((len text - 1) + 1 * max_chars) by lia.
    rewrite Z.div_add by lia. rewrite Z.div_small by lia. reflexivity. }
  rewrite E. unfold windows. simpl.
  rewrite firstn_all2; [reflexivity|]. unfold len in *. lia.
Qed.

Lemma chunk_text_short_witness :
  chunk_text (u "Hello world.") 3000 = Done [u "Hello world."].
Proof.
  apply (chunk_text_short (u "Hello world.") 3000). vm_compute.
  split; [reflexivity|discriminate].
Defined.

Lemma seq_from (a cnt : nat) : seq a cnt = map (Nat.add a) (seq 0 cnt).
Proof.
  revert a. induction cnt as [|cnt IH]; intros a; [reflexivity|].
  simpl. rewrite Nat.add_0_r. f_equal.
  rewrite (IH (S a)), <- seq_shift, map_map.
  apply map_ext. intros k. lia.
Qed.

Lemma windows_app (a b : str) (m ka cnt : nat) :
  length a = (ka * m)%nat ->
  windows (a ++ b) m (ka + cnt) = windows a m ka ++ windows b m cnt.
Proof.
  intros Ha. unfold windows. rewrite seq_app, map_app. f_equal.
  - apply map_ext_in. intros k Hk. apply in_seq in Hk.
    rewrite skipn_app, firstn_app.
    replace (k * m - length a)%nat with 0%nat by nia. simpl skipn.
    rewrite length_skipn.
    replace (m - (length a - k * m))%nat with 0%nat by nia.
    simpl. now rewrite app_nil_r.
  - simpl. rewrite (seq_from ka cnt), map_map.
    apply map_ext. intros k.
    rewrite skipn_app.
    rewrite (skipn_all2 (n := ((ka + k) * m)%nat) a) by nia.
    simpl. do 2 f_equal. nia.
Qed.

(** Chunking composes over a prefix made of whole chunks: when the length
    of [a] is a multiple of the positive maximum size, the chunks of
    [a ++ b] are the chunks of [a] followed by the chunks of [b]. *)
Theorem chunk_text_app (a b : str) (max_chars k : Z) :
  0 < max_chars -> len a = k * max_chars ->
  exists ca cb,
    chunk_text a max_chars = Done ca /\
    chunk_text b max_chars = Done cb /\
    chunk_text (a ++ b) max_chars = Done (ca ++ cb).
Proof.
  intros HM Ha.
  pose proof (len_nonneg a) as Hna. pose proof (len_nonneg b) as Hnb.
  assert (Hk : 0 <= k) by nia.
  assert (Ea : ceil_div (len a) max_chars = k).
  { unfold ceil_div. rewrite Ha.
    replace (k * max_chars + max_chars - 1)
      with ((max_chars - 1) + k * max_chars) by lia.
    rewrite Z.div_add by lia. rewrite Z.div_small by lia. lia. }
  assert (Eab : ceil_div (len (a ++ b)) max_chars
                = k + ceil_div (len b) max_chars).
  { unfold ceil_div, len in *. rewrite length_app, Nat2Z.inj_add, Ha.
    replace (k * max_chars + Z.of_nat (length b) + max_chars - 1)
      with ((Z.of_nat (length b) + max_chars - 1) + k * max_chars) by lia.
    rewrite Z.div_add by lia. lia. }
  pose proof (ceil_div_bounds (len b) max_chars HM) as [_ Hb].
  assert (Hcb : 0 <= ceil_div (len b) max_chars) by nia.
  exists (windows a (Z.to_nat max_chars) (Z.to_nat k)),
         (windows b (Z.to_nat max_chars)
            (Z.to_nat (ceil_div (len b) max_chars))).
  rewrite !chunk_text_windows by assumption.
  rewrite Ea, Eab. split; [reflexivity|]. split; [reflexivity|].
  f_equal. rewrite Z2Nat.inj_add by assumption.
  apply windows_app. unfold len in Ha. nia.
Qed.

Lemma chunk_text_app_witness :
  exists ca cb,
    chunk_text (u "abcdef") 3 = Done ca /\
    chunk_text (u "gh") 3 = Done cb /\
    chunk_text (u "abcdef" ++ u "gh") 3 = Done (ca ++ cb).
Proof.
  apply (chunk_text_app (u "abcdef") (u "gh") 3 2); reflexivity.
Defined.

(** ** Runs of the pipeline *)

Lemma chats_map_event (pairs : list (str * str)) :
  chats (map map_event pairs) = map map_exchange pairs.
Proof. exact (chats_answered pairs). Qed.

Lemma displayed_map_event (pairs : list (str * str)) :
  displayed (map map_event pairs) = [].
Proof. induction pairs as [|p pairs IH]; [reflexivity|exact IH]. Qed.

Lemma answered_map_exchange (pairs : list (str * str)) :
  Forall answered (map map_exchange pairs).
Proof.
  apply Forall_forall. intros x Hx.
  apply in_map_iff in Hx as (p & <- & _). exact I.
Qed.

Section Runs.

Variable capability : list Event -> Request -> Reply.

(** The loop either answers every chunk, or stops at the first request that
    raises, after the answered ones. *)
Lemma map_loop_shape (chunks : list str) : forall acc log,
  exists texts,
    (length texts = length chunks /\
     map_loop capability chunks acc log
     = (Done (acc ++ map strip texts),
        log ++ map map_event (combine chunks texts)))
    \/
    (exists chunk l,
       nth_error chunks (length texts) = Some chunk /\
       capability l (map_request chunk) = Failure /\
       map_loop capability chunks acc log
       = (Raised CapabilityFailure,
          log ++ map map_event (combine chunks texts)
              ++ [Chat (map_request chunk) Failure])).
Proof.
  induction chunks as [|chunk rest IH]; intros acc log.
  - exists []. left. simpl. unfold ret. now rewrite !app_nil_r.
  - simpl. unfold bind, chat.
    destruct (capability log (map_request chunk)) as [s|] eqn:Hrep.
    + destruct (IH (acc ++ [strip s])
                   (log ++ [Chat (map_request chunk) (Answer s)]))
        as [texts [[Hlen Hrun]|(c & l & Hnth & Hfail & Hrun)]];
        exists (s :: texts); [left|right].
      * split; [simpl; now rewrite Hlen|].
        rewrite Hrun. simpl. now rewrite <- !app_assoc.
      * exists c, l. split; [exact Hnth|]. split; [exact Hfail|].
        rewrite Hrun. simpl. now rewrite <- !app_assoc.
    + exists []. right. exists chunk, log.
      split; [reflexivity|]. split; [exact Hrep|]. reflexivity.
Qed.

Lemma map_stage_shape (chunks : list str) (log : list Event) :
  exists texts,
    (length texts = Nat.min (length chunks) 6 /\
     map_stage capability chunks log
     = (Done (map strip texts),
        log ++ SpinnerOn (u "Reading document...")
            :: map map_event (combine (firstn 6 chunks) texts)
            ++ [SpinnerOff]))
    \/
    (exists chunk l,
       nth_error (firstn 6 chunks) (length texts) = Some chunk /\
       capability l (map_request chunk) = Failure /\
       map_stage capability chunks log
       = (Raised CapabilityFailure,
          log ++ SpinnerOn (u "Reading document...")
              :: map map_event (combine (firstn 6 chunks) texts)
              ++ [Chat (map_request chunk) Failure; SpinnerOff])).
Proof.
  unfold map_stage, with_spinner. rewrite slice_first_six.
  destruct (map_loop_shape (firstn 6 chunks) []
              (log ++ [SpinnerOn (u "Reading document...")]))
    as [texts [[Hlen Hrun]|(c & l & Hnth & Hfail & Hrun)]];
    exists texts; [left|right].
  - split; [rewrite Hlen, length_firstn; lia|].
    rewrite Hrun. simpl. f_equal. now rewrite <- !app_assoc.
  - exists c, l. split; [exact Hnth|]. split; [exact Hfail|].
    rewrite Hrun. f_equal. rewrite <- !app_assoc. reflexivity.
Qed.

(** The reduce step after an answered or a failed request. *)
Lemma reduce_stage_shape (summary_type combined : str) (log : list Event) :
  (exists final,
     reduce_stage capability summary_type combined log
     = (Done tt,
        log ++ reduce_events (reduce_request summary_type combined) final))
  \/
  ((exists l, capability l (reduce_request summary_type combined) = Failure) /\
   reduce_stage capability summary_type combined log
   = (Raised CapabilityFailure,
      log ++ reduce_failed (reduce_request summary_type combined))).
Proof.
  unfold reduce_stage, bind, with_spinner, chat.
  set (req := reduce_request summary_type combined).
  set (log1 := log ++ [SpinnerOn (u "Generating summary...")]).
  destruct (capability log1 req) as [final|] eqn:Hrep.
  - left. exists final.
    unfold st_success, st_subheader, st_markdown, emit, reduce_events, log1.
    f_equal. now rewrite <- !app_assoc.
  - right. split; [now exists log1|].
    unfold reduce_failed, log1. f_equal. now rewrite <- !app_assoc.
Qed.

(** The three ways a run past the guard can go: a map request raises; the
    reduce request raises; everything is answered. *)
Lemma summarize_shape (text summary_type : str) (log : list Event) :
  exists chunks texts,
    chunk_text text max_chars_default = Done chunks /\
    (length texts <= Nat.min (length chunks) 6)%nat /\
    let sent := map map_event (combine (firstn 6 chunks) texts) in
    let red := reduce_request summary_type (combined_text (map strip texts)) in
    ((exists chunk l,
        nth_error (firstn 6 chunks) (length texts) = Some chunk /\
        capability l (map_request chunk) = Failure /\
        summarize capability text summary_type log
        = (Raised CapabilityFailure,
           log ++ SpinnerOn (u "Reading document...") :: sent
               ++ [Chat (map_request chunk) Failure; SpinnerOff]))
     \/
     (length texts = Nat.min (length chunks) 6 /\
      (exists l, capability l red = Failure) /\
      summarize capability text summary_type log
      = (Raised CapabilityFailure,
         log ++ SpinnerOn (u "Reading document...") :: sent
             ++ [SpinnerOff] ++ reduce_failed red))
     \/
     (length texts = Nat.min (length chunks) 6 /\
      exists final,
        summarize capability text summary_type log
        = (Done tt,
           log ++ SpinnerOn (u "Reading document...") :: sent
               ++ [SpinnerOff] ++ reduce_events red final))).
Proof.
  exists (windows text (Z.to_nat max_chars_default)
            (Z.to_nat (ceil_div (len text) max_chars_default))).
  set (chunks := windows _ _ _).
  assert (Echunks : chunk_text text max_chars_default = Done chunks)
    by (apply chunk_text_windows; reflexivity).
  unfold summarize, bind, lift. rewrite Echunks.
  destruct (map_stage_shape chunks log)
    as [texts [[Hlen Hrun]|(c & l & Hnth & Hfail & Hrun)]];
    exists texts; (split; [reflexivity|]).
  - split; [lia|]. cbv zeta. right. rewrite Hrun. cbv beta iota.
    destruct (reduce_stage_shape summary_type
                (combined_text (map strip texts))
                (log ++ SpinnerOn (u "Reading document...")
                     :: map map_event (combine (firstn 6 chunks) texts)
                     ++ [SpinnerOff]))
      as [[final Hred]|[Hfail Hred]]; [right|left];
      (split; [exact Hlen|]).
    + exists final. rewrite Hred. f_equal.
      rewrite <- !app_assoc. simpl. now rewrite <- !app_assoc.
    + split; [exact Hfail|]. rewrite Hred. f_equal.
      rewrite <- !app_assoc. simpl. now rewrite <- !app_assoc.
  - split.
    { assert (Hb : (length texts < length (firstn 6 chunks))%nat)
        by (apply nth_error_Some; rewrite Hnth; discriminate).
      rewrite length_firstn in Hb. lia. }
    cbv zeta. left. exists c, l.
    split; [exact Hnth|]. split; [exact Hfail|]. now rewrite Hrun.
Qed.

End Runs.

Lemma errors_app (a b : list Event) : errors (a ++ b) = errors a ++ errors b.
Proof.
  induction a as [|e a IH]; simpl; [reflexivity|].
  destruct e; simpl; now rewrite ?IH.
Qed.

Lemma errors_map_event (pairs : list (str * str)) :
  errors (map map_event pairs) = [].
Proof. induction pairs as [|p pairs IH]; [reflexivity|exact IH]. Qed.

Lemma chats_sent (msg : str) (pairs : list (str * str)) (rest : list Event) :
  chats (SpinnerOn msg :: map map_event pairs ++ rest)
  = map map_exchange pairs ++ chats rest.
Proof. simpl. now rewrite chats_app, chats_map_event. Qed.

Lemma errors_sent (msg : str) (pairs : list (str * str)) (rest : list Event) :
  errors (SpinnerOn msg :: map map_event pairs ++ rest) = errors rest.
Proof. simpl. now rewrite errors_app, errors_map_event. Qed.

Lemma displayed_sent (msg : str) (pairs : list (str * str))
  (rest : list Event) :
  displayed (SpinnerOn msg :: map map_event pairs ++ rest) = displayed rest.
Proof. simpl. now rewrite displayed_app, displayed_map_event. Qed.

Lemma blank_dec (t : str) : {blank t} + {~ blank t}.
Proof.
  apply Forall_dec. intros c. destruct (isspace c); [now left|right; discriminate].
Defined.

(** The guard, both ways. *)
Lemma generate_summary_cases
  (capability : list Event -> Request -> Reply)
  (text : option str) (summary_type : str) :
  (absent_or_blank text /\
   forall log,
     generate_summary capability text summary_type log
     = (Done tt, log ++ [StError (u "Unsupported or empty file.")]))
  \/
  (exists t, text = Some t /\ ~ blank t /\
     generate_summary capability text summary_type
     = summarize capability t summary_type).
Proof.
  destruct text as [t|]; [|left; split; [exact I|reflexivity]].
  destruct (blank_dec t) as [B|B].
  - left. split; [exact B|]. intros log. simpl.
    rewrite (strip_blank t B). simpl. now rewrite orb_true_r.
  - right. exists t. split; [reflexivity|]. split; [exact B|].
    now apply guard_passes.
Qed.

Lemma firstn_of_seq (j a cnt : nat) :
  firstn j (seq a cnt) = seq a (Nat.min j cnt).
Proof.
  revert a cnt. induction j as [|j IH]; intros a [|cnt]; simpl;
    try reflexivity.
  now rewrite IH.
Qed.

Lemma firstn_windows (T : str) (m cnt j : nat) :
  firstn j (windows T m cnt) = windows T m (Nat.min j cnt).
Proof. unfold windows. now rewrite firstn_map, firstn_of_seq. Qed.

Lemma windows_of_prefix (T : str) (m k b : nat) :
  (k * m <= b)%nat -> windows (firstn b T) m k = windows T m k.
Proof.
  intros H. unfold windows. apply map_ext_in. intros i Hi.
  apply in_seq in Hi.
  rewrite skipn_firstn_comm, firstn_firstn. f_equal. nia.
Qed.

Lemma slice_prefix {A} (l : list A) (hi : Z) :
  0 <= hi -> slice l 0 hi = firstn (Z.to_nat hi) l.
Proof.
  intros H. rewrite slice_window by lia. simpl skipn.
  now rewrite Z.sub_0_r.
Qed.

(** What [chunk_text] gives at the default size. *)
Lemma default_chunks (text : str) (chunks : list str) :
  chunk_text text max_chars_default = Done chunks ->
  chunks = windows text (Z.to_nat 3000) (Z.to_nat (ceil_div (len text) 3000)).
Proof.
  rewrite chunk_text_windows by reflexivity. intros H. now inversion H.
Qed.

Lemma default_chunk_bounds (text : str) (chunks : list str) (chunk : str) :
  chunk_text text max_chars_default = Done chunks ->
  In chunk chunks ->
  substring chunk text /\ 0 < len chunk <= 3000.
Proof.
  intros H Hin. apply default_chunks in H. subst chunks.
  apply In_nth_error in Hin as [k Hk].
  apply windows_nth in Hk as [Hk ->].
  split; [apply window_substring|].
  pose proof (ceil_div_bounds (len text) 3000 ltac:(lia)) as [Hlo _].
  unfold len in *. rewrite length_firstn, length_skipn. lia.
Qed.

Lemma default_first_chunk (text : str) (chunks : list str) :
  chunk_text text max_chars_default = Done chunks ->
  text <> [] ->
  exists rest, chunks = slice text 0 3000 :: rest.
Proof.
  intros H Hne. apply default_chunks in H. subst chunks.
  pose proof (ceil_div_bounds (len text) 3000 ltac:(lia)) as [_ Hhi].
  assert (Hpos : 0 < len text).
  { unfold len. destruct text; [congruence|simpl; lia]. }
  destruct (Z.to_nat (ceil_div (len text) 3000)) as [|cnt] eqn:E; [lia|].
  rewrite slice_prefix by lia.
  unfold windows. rewrite <- cons_seq, map_cons.
  eexists. reflexivity.
Qed.

Lemma first_six_cover (text : str) (chunks : list str) :
  chunk_text text max_chars_default = Done chunks ->
  concat (firstn 6 chunks) = slice text 0 18000.
Proof.
  intros H. apply default_chunks in H. subst chunks.
  rewrite firstn_windows, windows_concat, slice_prefix by lia.
  pose proof (ceil_div_bounds (len text) 3000 ltac:(lia)) as [Hlo Hhi].
  unfold len in *.
  destruct (Nat.le_gt_cases 6 (Z.to_nat (ceil_div (Z.of_nat (length text)) 3000)))
    as [Hc|Hc].
  - rewrite Nat.min_l by exact Hc. f_equal; lia.
  - rewrite Nat.min_r by lia.
    rewrite !firstn_all2; [reflexivity|lia|lia].
Qed.

(** Past the guard, a run depends on the first 18000 characters of the text
    only (six chunks of 3000): cutting the text there changes neither the
    requests, nor the result, nor what is shown. *)
Theorem summarize_first_18000
  (capability : list Event -> Request -> Reply)
  (text summary_type : str) (log : list Event) :
  summarize capability text summary_type log
  = summarize capability (slice text 0 18000) summary_type log.
Proof.
  rewrite slice_prefix by lia.
  destruct (Z.le_gt_cases (len text) 18000) as [Hshort|Hlong].
  { rewrite firstn_all2; [reflexivity|unfold len in *; lia]. }
  unfold summarize, bind, lift.
  rewrite !chunk_text_windows by reflexivity.
  set (W1 := windows text _ _).
  set (W2 := windows (firstn (Z.to_nat 18000) text) _ _).
  assert (E : firstn 6 W1 = firstn 6 W2).
  { subst W1 W2. rewrite !firstn_windows.
    pose proof (ceil_div_bounds (len text) max_chars_default ltac:(reflexivity))
      as [_ Hhi].
    assert (Hlen : len (firstn (Z.to_nat 18000) text) = 18000)
      by (unfold len in *; rewrite length_firstn; lia).
    rewrite Hlen.
    replace (Z.to_nat (ceil_div 18000 max_chars_default)) with 6%nat
      by reflexivity.
    unfold max_chars_default in *.
    rewrite (Nat.min_l 6) by lia. rewrite (Nat.min_l 6 6) by lia.
    symmetry. apply windows_of_prefix. lia. }
  assert (Estage : map_stage capability W1 log = map_stage capability W2 log).
  { unfold map_stage, with_spinner. rewrite !slice_first_six. now rewrite E. }
  now rewrite Estage.
Qed.

(** Text that is not blank is never turned away: no error is shown, and the
    first request sent is the map request for the first 3000 characters. *)
Theorem nonblank_text_is_summarized
  (capability : list Event -> Request -> Reply)
  (t summary_type : str) (log : list Event) :
  ~ blank t ->
  exists out evs reply rest,
    generate_summary capability (Some t) summary_type log = (out, log ++ evs) /\
    chats evs = (map_request (slice t 0 3000), reply) :: rest /\
    errors evs = [].
Proof.
  intros B. rewrite guard_passes by exact B.
  assert (Hne : t <> []) by (intros ->; apply B; constructor).
  destruct (summarize_shape capability t summary_type log)
    as (chunks & texts & Hchunks & Hle & Hcases).
  destruct (default_first_chunk t chunks Hchunks Hne) as [more ->].
  cbv zeta in Hcases.
  change (firstn 6 (slice t 0 3000 :: more))
    with (slice t 0 3000 :: firstn 5 more) in Hcases.
  destruct Hcases
    as [(c & l & Hnth & _ & Hrun)|[(Hlen & _ & Hrun)|(Hlen & final & Hrun)]];
    destruct texts as [|s texts];
    try (simpl in Hlen; lia);
    try (simpl in Hnth; inversion Hnth; subst c);
    rewrite Hrun; eexists _, _, _, _;
    (split; [reflexivity|]);
    rewrite chats_sent, errors_sent;
    (split; reflexivity).
Qed.

Lemma nonblank_text_is_summarized_witness :
  exists out evs reply rest,
    generate_summary (canned (u "ok")) (Some (u "Hello world.")) short_label []
    = (out, [] ++ evs) /\
    chats evs = (map_request (slice (u "Hello world.") 0 3000), reply) :: rest /\
    errors evs = [].
Proof.
  apply (nonblank_text_is_summarized (canned (u "ok")) (u "Hello world.")
           short_label []).
  intros B. inversion B as [|c s Hc _]. vm_compute in Hc. discriminate Hc.
Defined.

(** When no request fails, text that is not blank is summarised to the end:
    the chunks sent are the first six at most, which together are the first
    18000 characters of the text; one map request per such chunk, in order,
    then one reduce request over the newline-join of the stripped answers;
    every answer in the log is the one the client gave to that request; and
    the one thing displayed is the client's answer to the reduce request,
    stripped. *)
Theorem generate_summary_success
  (capability : list Event -> Request -> Reply)
  (t summary_type : str) (log : list Event) :
  never_fails capability -> ~ blank t ->
  exists chunks texts final evs,
    chunk_text t max_chars_default = Done chunks /\
    length texts = Nat.min (length chunks) 6 /\
    concat (firstn 6 chunks) = slice t 0 18000 /\
    generate_summary capability (Some t) summary_type log
    = (Done tt, log ++ evs) /\
    replied capability log evs /\
    chats evs
    = map map_exchange (combine (firstn 6 chunks) texts)
      ++ [(reduce_request summary_type (combined_text (map strip texts)),
           Answer final)] /\
    (exists before,
       capability (log ++ before)
         (reduce_request summary_type (combined_text (map strip texts)))
       = Answer final) /\
    displayed evs = [strip final].
Proof.
  intros Hnf B. rewrite guard_passes by exact B.
  destruct (summarize_shape capability t summary_type log)
    as (chunks & texts & Hchunks & Hle & Hcases).
  cbv zeta in Hcases.
  destruct Hcases
    as [(c & l & _ & Hfail & _)|[(_ & [l Hfail] & _)|(Hlen & final & Hrun)]];
    try (exfalso; exact (Hnf _ _ Hfail)).
  pose proof (replied_of_run capability _ log _ _
                (honest_summarize capability t summary_type) Hrun) as Hrep.
  exists chunks, texts, final. eexists.
  split; [exact Hchunks|]. split; [exact Hlen|].
  split; [now apply first_six_cover|].
  split; [exact Hrun|].
  split; [exact Hrep|].
  assert (Hchats :
            chats (SpinnerOn (u "Reading document...")
                   :: map map_event (combine (firstn 6 chunks) texts)
                   ++ [SpinnerOff]
                   ++ reduce_events
                        (reduce_request summary_type
                           (combined_text (map strip texts))) final)
            = map map_exchange (combine (firstn 6 chunks) texts)
              ++ [(reduce_request summary_type
                     (combined_text (map strip texts)), Answer final)])
    by (rewrite chats_sent; reflexivity).
  split; [exact Hchats|].
  split.
  { assert (Hnth : nth_error
                     (map map_exchange (combine (firstn 6 chunks) texts)
                      ++ [(reduce_request summary_type
                             (combined_text (map strip texts)),
                           Answer final)])
                     (length (map map_exchange
                                (combine (firstn 6 chunks) texts)))
                   = Some (reduce_request summary_type
                             (combined_text (map strip texts)),
                           Answer final)).
    { rewrite nth_error_app2 by lia. now rewrite Nat.sub_diag. }
    rewrite <- Hchats in Hnth.
    destruct (replied_chat capability _ log _ _ _ Hrep Hnth)
      as (before & after & _ & Hcap).
    exists before. now symmetry. }
  rewrite displayed_sent. reflexivity.
Qed.

Lemma generate_summary_success_witness :
  exists chunks texts final evs,
    chunk_text (u "Hello world.") max_chars_default = Done chunks /\
    length texts = Nat.min (length chunks) 6 /\
    concat (firstn 6 chunks) = slice (u "Hello world.") 0 18000 /\
    generate_summary echo (Some (u "Hello world.")) topic_label []
    = (Done tt, [] ++ evs) /\
    replied echo [] evs /\
    chats evs
    = map map_exchange (combine (firstn 6 chunks) texts)
      ++ [(reduce_request topic_label (combined_text (map strip texts)),
           Answer final)] /\
    (exists before,
       echo ([] ++ before)
         (reduce_request topic_label (combined_text (map strip texts)))
       = Answer final) /\
    displayed evs = [strip final].
Proof.
  apply (generate_summary_success echo (u "Hello world.") topic_label []).
  - intros l r. discriminate.
  - intros B. inversion B as [|c s Hc _]. vm_compute in Hc. discriminate Hc.
Defined.

(** With a client that echoes its user message the whole run can be read
    off: the summary displayed is the text itself. *)
Example generate_summary_echo :
  displayed (snd (generate_summary echo (Some (u "Hello world."))
                    topic_label []))
  = [u "Hello world."].
Proof. vm_compute. reflexivity. Qed.

(** Whatever the text, the mode and the behaviour of the client, one run
    sends at most seven requests: six for chunks and one to reduce. *)
Theorem at_most_seven_requests
  (capability : list Event -> Request -> Reply)
  (text : option str) (summary_type : str) (log : list Event) :
  exists out evs,
    generate_summary capability text summary_type log = (out, log ++ evs) /\
    (length (requests evs) <= 7)%nat.
Proof.
  destruct (generate_summary_cases capability text summary_type)
    as [[_ Hrun]|(t & -> & B & Hrun)]; rewrite Hrun.
  { eexists _, _. split; [reflexivity|]. simpl. lia. }
  destruct (summarize_shape capability t summary_type log)
    as (chunks & texts & _ & Hle & Hcases).
  cbv zeta in Hcases.
  assert (Hsent : (length (map map_exchange (combine (firstn 6 chunks) texts))
                   <= 6)%nat).
  { rewrite length_map, length_combine. lia. }
  destruct Hcases
    as [(c & l & _ & _ & Hsum)|[(_ & _ & Hsum)|(_ & final & Hsum)]];
    rewrite Hsum; eexists _, _; (split; [reflexivity|]);
    unfold requests; rewrite chats_sent, length_map, length_app;
    set (n := length (map map_exchange _)) in *; simpl; lia.
Qed.

(** No partial output: a run that ends in an exception has displayed no
    summary; the exception is the client's; the request that failed is the
    last one sent and every earlier one was answered.  A run that ends
    normally had all its requests answered. *)
Theorem no_partial_output
  (capability : list Event -> Request -> Reply)
  (text : option str) (summary_type : str) (log : list Event) :
  exists out evs,
    generate_summary capability text summary_type log = (out, log ++ evs) /\
    (out = Done tt -> Forall answered (chats evs)) /\
    (forall e, out = Raised e ->
       e = CapabilityFailure /\
       displayed evs = [] /\
       exists before req,
         chats evs = before ++ [(req, Failure)] /\ Forall answered before).
Proof.
  destruct (generate_summary_cases capability text summary_type)
    as [[_ Hrun]|(t & -> & B & Hrun)]; rewrite Hrun.
  { eexists _, _. split; [reflexivity|].
    split; [intros _; constructor|discriminate]. }
  destruct (summarize_shape capability t summary_type log)
    as (chunks & texts & _ & _ & Hcases).
  cbv zeta in Hcases.
  destruct Hcases
    as [(c & l & _ & _ & Hsum)|[(_ & _ & Hsum)|(_ & final & Hsum)]];
    rewrite Hsum; eexists _, _; (split; [reflexivity|]);
    rewrite chats_sent, displayed_sent.
  - split; [discriminate|]. intros e He. inversion He; subst e.
    split; [reflexivity|]. split; [reflexivity|].
    eexists _, _. split; [reflexivity|apply answered_map_exchange].
  - split; [discriminate|]. intros e He. inversion He; subst e.
    split; [reflexivity|]. split; [reflexivity|].
    eexists _, _. split; [reflexivity|apply answered_map_exchange].
  - split; [|discriminate]. intros _.
    apply Forall_app. split; [apply answered_map_exchange|].
    repeat constructor.
Qed.

(** Every request of a run is either a map request whose user message is a
    chunk of the text, between 1 and 3000 characters long, or a reduce
    request of the selected mode. *)
Theorem requests_are_chunks_or_reduce
  (capability : list Event -> Request -> Reply)
  (t summary_type : str) (log : list Event) :
  exists out evs,
    generate_summary capability (Some t) summary_type log
    = (out, log ++ evs) /\
    forall req, In req (requests evs) ->
      (exists chunk,
         req = map_request chunk /\ substring chunk t /\
         0 < len chunk <= 3000)
      \/ (exists combined, req = reduce_request summary_type combined).
Proof.
  destruct (generate_summary_cases capability (Some t) summary_type)
    as [[_ Hrun]|(t' & Et & B & Hrun)]; rewrite Hrun.
  { eexists _, _. split; [reflexivity|]. intros req []. }
  inversion Et; subst t'. clear Et.
  destruct (summarize_shape capability t summary_type log)
    as (chunks & texts & Hchunks & _ & Hcases).
  cbv zeta in Hcases.
  assert (Hmap : forall req,
             In req (map fst (map map_exchange
                                (combine (firstn 6 chunks) texts))) ->
             exists chunk, req = map_request chunk /\ substring chunk t /\
                           0 < len chunk <= 3000).
  { intros req Hin. rewrite map_map in Hin.
    apply in_map_iff in Hin as ([chunk s] & <- & Hin).
    apply in_combine_l, in_firstn in Hin.
    exists chunk. split; [reflexivity|].
    exact (default_chunk_bounds t chunks chunk Hchunks Hin). }
  destruct Hcases
    as [(c & l & Hnth & _ & Hsum)|[(_ & _ & Hsum)|(_ & final & Hsum)]];
    rewrite Hsum; eexists _, _; (split; [reflexivity|]);
    intros req Hin; unfold requests in Hin;
    rewrite chats_sent, map_app in Hin;
    apply in_app_or in Hin as [Hin|Hin]; try (left; exact (Hmap req Hin)).
  - left. simpl in Hin. destruct Hin as [<-|[]].
    apply nth_error_In, in_firstn in Hnth.
    exists c. split; [reflexivity|].
    exact (default_chunk_bounds t chunks c Hchunks Hnth).
  - right. simpl in Hin. destruct Hin as [<-|[]]. eexists. reflexivity.
  - right. simpl in Hin. destruct Hin as [<-|[]]. eexists. reflexivity.
Qed.

(** ** Text extraction *)

Lemma str_eqb_refl (a : str) : str_eqb a a = true.
Proof. now apply str_eqb_eq. Qed.

(** [endswith] holds exactly of the strings that are something followed by
    the suffix. *)
Lemma endswith_spec (s suffix : str) :
  endswith s suffix = true <-> exists pre, s = pre ++ suffix.
Proof.
  unfold endswith. rewrite andb_true_iff, Nat.leb_le, str_eqb_eq. split.
  - intros [Hlen E].
    exists (firstn (length s - length suffix) s).
    transitivity (firstn (length s - length suffix) s
                  ++ skipn (length s - length suffix) s);
      [symmetry; apply firstn_skipn|now rewrite E].
  - intros [pre ->]. rewrite length_app. split; [lia|].
    replace (length pre + length suffix - length suffix)%nat
      with (length pre) by lia.
    rewrite skipn_app, skipn_all, Nat.sub_diag. reflexivity.
Qed.

(** Two suffixes of one string: one of them is a suffix of the other. *)
Lemma endswith_comparable (s a b : str) :
  endswith s a = true -> endswith s b = true ->
  endswith a b = true \/ endswith b a = true.
Proof.
  rewrite !endswith_spec. intros [pa Ea] [pb Eb].
  assert (Hl : length (pa ++ a) = length (pb ++ b)) by congruence.
  rewrite !length_app in Hl.
  destruct (Nat.le_ge_cases (length b) (length a)) as [H|H].
  - left. exists (skipn (length pa) pb).
    assert (E : pa ++ a = pb ++ b) by congruence.
    apply (f_equal (skipn (length pa))) in E.
    rewrite !skipn_app, skipn_all, Nat.sub_diag in E. simpl in E.
    replace (length pa - length pb)%nat with 0%nat in E by lia.
    exact E.
  - right. exists (skipn (length pb) pa).
    assert (E : pb ++ b = pa ++ a) by congruence.
    apply (f_equal (skipn (length pb))) in E.
    rewrite !skipn_app, skipn_all, Nat.sub_diag in E. simpl in E.
    replace (length pb - length pa)%nat with 0%nat in E by lia.
    exact E.
Qed.

(** A string that ends with one suffix does not end with another when
    neither suffix ends with the other. *)
Lemma endswith_other (s a b : str) :
  endswith s a = true ->
  endswith a b || endswith b a = false ->
  endswith s b = false.
Proof.
  intros Ha Hab. destruct (endswith s b) eqn:Hb; [|reflexivity].
  destruct (endswith_comparable s a b Ha Hb) as [H|H];
    rewrite H in Hab; [discriminate|].
  rewrite orb_true_r in Hab. discriminate.
Qed.

Lemma read_map_some_not_none {A} (f : A -> str) (r : Read A) :
  read_map (fun a => Some (f a)) r <> Got None.
Proof. destruct r; discriminate. Qed.

Section Extraction.

Variable lower : str -> str.
Variable readers : Readers.

(** The tests of [extract_text], in its order. *)
Lemma extract_text_tests (file : File) :
  let ends suffix := endswith (lower (name file)) suffix in
  extract_text lower readers file =
  if ends (u ".pdf") then extract_pdf readers file
  else if ends (u ".docx") then extract_docx readers file
  else if ends (u ".txt") then read_map Some (read_utf8 readers file)
  else if ends (u ".csv") then read_map Some (csv_to_string readers file)
  else if ends (u ".xls") || ends (u ".xlsx") then
    read_map Some (excel_to_string readers file)
  else if ends (u ".pptx") then extract_pptx readers file
  else if ends (u ".html") || ends (u ".htm") then
    read_map Some (html_text readers file)
  else if ends (u ".png") || ends (u ".jpg") || ends (u ".jpeg") then
    read_map Some (image_to_string readers file)
  else Got None.
Proof.
  unfold extract_text, endswith_any, existsb. cbv zeta.
  now rewrite !orb_false_r, ?orb_assoc.
Qed.

(** No branch of [extract_text] that calls a reader returns [None]. *)
Lemma branches_not_none (file : File) :
  extract_pdf readers file <> Got None /\
  extract_docx readers file <> Got None /\
  extract_pptx readers file <> Got None /\
  (forall r : Read str, read_map Some r <> Got None).
Proof.
  unfold extract_pdf, extract_docx, extract_pptx.
  repeat split; try apply read_map_some_not_none;
    intros r; destruct r; discriminate.
Qed.

(** The lowered name ends with none of the uploader's extensions. *)
Lemma no_extension_tests (file : File) :
  (forall ext, In ext uploader_types ->
     endswith (lower (name file)) (u "." ++ ext) = false) <->
  (let ends suffix := endswith (lower (name file)) suffix in
   ends (u ".pdf") = false /\ ends (u ".docx") = false /\
   ends (u ".txt") = false /\ ends (u ".csv") = false /\
   ends (u ".xls") = false /\ ends (u ".xlsx") = false /\
   ends (u ".pptx") = false /\ ends (u ".html") = false /\
   ends (u ".htm") = false /\ ends (u ".png") = false /\
   ends (u ".jpg") = false /\ ends (u ".jpeg") = false).
Proof.
  cbv zeta. split.
  - intros H. repeat split;
      match goal with
      | |- endswith _ ?suffix = false =>
          apply (H (skipn 1 suffix)); vm_compute; tauto
      end.
  - intros (H1 & H2 & H3 & H4 & H5 & H6 & H7 & H8 & H9 & H10 & H11 & H12)
      ext Hin.
    simpl in Hin.
    repeat (destruct Hin as [<-|Hin]; [assumption|]). destruct Hin.
Qed.

Lemma extract_text_fallthrough (file : File) :
  (forall ext, In ext uploader_types ->
     endswith (lower (name file)) (u "." ++ ext) = false) ->
  extract_text lower readers file = Got None.
Proof.
  intros H. apply no_extension_tests in H. cbv zeta in H.
  destruct H as (H1 & H2 & H3 & H4 & H5 & H6 & H7 & H8 & H9 & H10 & H11 & H12).
  rewrite extract_text_tests. cbv zeta.
  now rewrite H1, H2, H3, H4, H5, H6, H7, H8, H9, H10, H11, H12.
Qed.

Lemma extract_text_none_inv (file : File) :
  extract_text lower readers file = Got None ->
  forall ext, In ext uploader_types ->
    endswith (lower (name file)) (u "." ++ ext) = false.
Proof.
  intros H. apply no_extension_tests. cbv zeta.
  rewrite extract_text_tests in H. cbv zeta in H.
  destruct (branches_not_none file) as (Np & Nd & Nx & Nr).
  repeat match type of H with
         | context [endswith ?s ?suffix] =>
             destruct (endswith s suffix) eqn:?; simpl in H
         end;
    try (exfalso; first [exact (Np H)|exact (Nd H)|exact (Nx H)|exact (Nr _ H)]).
  repeat split; reflexivity.
Qed.

End Extraction.

Lemma join_blank (sep : str) (parts : list str) :
  blank sep -> Forall blank parts -> blank (join sep parts).
Proof.
  intros Hsep H. induction H as [|p parts Hp Hparts IH]; [constructor|].
  destruct parts as [|q parts]; [exact Hp|].
  change (join sep (p :: q :: parts)) with (p ++ sep ++ join sep (q :: parts)).
  apply Forall_app. split; [exact Hp|].
  apply Forall_app. split; [exact Hsep|exact IH].
Qed.

Lemma or_empty_blank (page : option str) :
  match page with None => True | Some s => blank s end ->
  blank (or_empty page).
Proof.
  destruct page as [s|]; simpl; [|constructor].
  destruct s; [constructor|]. now simpl.
Qed.

Ltac other_suffixes H :=
  try rewrite (endswith_other _ _ (u ".pdf") H eq_refl);
  try rewrite (endswith_other _ _ (u ".docx") H eq_refl);
  try rewrite (endswith_other _ _ (u ".txt") H eq_refl);
  try rewrite (endswith_other _ _ (u ".csv") H eq_refl);
  try rewrite (endswith_other _ _ (u ".xls") H eq_refl);
  try rewrite (endswith_other _ _ (u ".xlsx") H eq_refl);
  try rewrite (endswith_other _ _ (u ".pptx") H eq_refl);
  try rewrite (endswith_other _ _ (u ".html") H eq_refl);
  try rewrite (endswith_other _ _ (u ".htm") H eq_refl);
  try rewrite (endswith_other _ _ (u ".png") H eq_refl);
  try rewrite (endswith_other _ _ (u ".jpg") H eq_refl);
  try rewrite (endswith_other _ _ (u ".jpeg") H eq_refl);
  rewrite H; simpl; reflexivity.

(** [extract_text] returns [None] exactly for the files whose lowered name
    ends with none of the extensions the uploader accepts (a dot and the
    extension): every accepted extension has a branch that calls a reader,
    and there is no branch for any other name. *)
Theorem extract_text_none_iff
  (lower : str -> str) (readers : Readers) (file : File) :
  extract_text lower readers file = Got None <->
  forall ext, In ext uploader_types ->
    endswith (lower (name file)) (u "." ++ ext) = false.
Proof.
  split; [apply extract_text_none_inv|apply extract_text_fallthrough].
Qed.

(** Each extension selects its own reader, whatever the order of the tests:
    no file name passes the test of two branches. *)
Theorem extract_text_dispatch
  (lower : str -> str) (readers : Readers) (file : File) :
  let ends suffix := endswith (lower (name file)) suffix = true in
  let result := extract_text lower readers file in
  (ends (u ".pdf") -> result = extract_pdf readers file) /\
  (ends (u ".docx") -> result = extract_docx readers file) /\
  (ends (u ".txt") -> result = read_map Some (read_utf8 readers file)) /\
  (ends (u ".csv") -> result = read_map Some (csv_to_string readers file)) /\
  (ends (u ".xls") \/ ends (u ".xlsx") ->
   result = read_map Some (excel_to_string readers file)) /\
  (ends (u ".pptx") -> result = extract_pptx readers file) /\
  (ends (u ".html") \/ ends (u ".htm") ->
   result = read_map Some (html_text readers file)) /\
  (ends (u ".png") \/ ends (u ".jpg") \/ ends (u ".jpeg") ->
   result = read_map Some (image_to_string readers file)).
Proof.
  cbv zeta. rewrite extract_text_tests. cbv zeta.
  repeat split; intros H;
    repeat match type of H with _ \/ _ => destruct H as [H|H] end;
    other_suffixes H.
Qed.

Lemma extract_text_dispatch_witness :
  extract_text ascii_lower (fixed_readers [] (u "a,b"))
    {| name := u "Sales.XLSX"; body := [] |}
  = read_map Some
      (excel_to_string (fixed_readers [] (u "a,b"))
         {| name := u "Sales.XLSX"; body := [] |}).
Proof.
  destruct (extract_text_dispatch ascii_lower (fixed_readers [] (u "a,b"))
              {| name := u "Sales.XLSX"; body := [] |})
    as (_ & _ & _ & _ & Hexcel & _).
  apply Hexcel. right. reflexivity.
Defined.

(** ** The script *)

Lemma blank_text_run
  (capability : list Event -> Request -> Reply)
  (text : option str) (summary_type : str) (log : list Event) :
  absent_or_blank text ->
  generate_summary capability text summary_type log
  = (Done tt, log ++ [StError (u "Unsupported or empty file.")]).
Proof.
  intros H.
  destruct (generate_summary_cases capability text summary_type)
    as [[_ Hrun]|(t & -> & B & _)]; [apply Hrun|].
  exfalso. exact (B H).
Qed.

(** A file with an extension that is not among the accepted ones: the run
    shows the error [Unsupported or empty file.] and sends no request. *)
Theorem unrecognised_extension_is_rejected
  (lower : str -> str) (readers : Readers)
  (capability : list Event -> Request -> Reply)
  (file : File) (summary_type : str) (log : list Event) :
  (forall ext, In ext uploader_types ->
     endswith (lower (name file)) (u "." ++ ext) = false) ->
  script lower readers capability (Some file) true summary_type log
  = (Completed,
     log ++ [ SpinnerOn (u "Extracting text..."); SpinnerOff;
              StError (u "Unsupported or empty file.") ]).
Proof.
  intros H. unfold script.
  rewrite (extract_text_fallthrough lower readers file H).
  rewrite blank_text_run by exact I.
  now rewrite <- app_assoc.
Qed.

Lemma unrecognised_extension_is_rejected_witness :
  script ascii_lower (fixed_readers [] (u "text")) (canned (u "ok"))
    (Some {| name := u "archive.zip"; body := [] |}) true short_label []
  = (Completed,
     [] ++ [ SpinnerOn (u "Extracting text..."); SpinnerOff;
             StError (u "Unsupported or empty file.") ]).
Proof.
  apply (unrecognised_extension_is_rejected ascii_lower
           (fixed_readers [] (u "text")) (canned (u "ok"))
           {| name := u "archive.zip"; body := [] |} short_label []).
  intros ext Hin. simpl in Hin.
  repeat (destruct Hin as [<-|Hin]; [reflexivity|]). destruct Hin.
Defined.

(** A PDF without a text layer: when every page gives no text, the empty
    string or only whitespace, the pages are joined into blank text, and the
    run shows the error and sends no request. *)
Theorem pdf_without_text_is_rejected
  (lower : str -> str) (readers : Readers)
  (capability : list Event -> Request -> Reply)
  (file : File) (pages : list (option str))
  (summary_type : str) (log : list Event) :
  endswith (lower (name file)) (u ".pdf") = true ->
  pdf_pages readers file = Got pages ->
  Forall (fun page => match page with None => True | Some s => blank s end)
         pages ->
  script lower readers capability (Some file) true summary_type log
  = (Completed,
     log ++ [ SpinnerOn (u "Extracting text..."); SpinnerOff;
              StError (u "Unsupported or empty file.") ]).
Proof.
  intros Hpdf Hpages Hblank. unfold script.
  rewrite extract_text_tests. cbv zeta. rewrite Hpdf.
  unfold extract_pdf. rewrite Hpages. unfold read_map. cbv beta iota.
  rewrite blank_text_run.
  - now rewrite <- app_assoc.
  - simpl. apply join_blank; [repeat constructor|].
    apply Forall_map. revert Hblank. apply Forall_impl.
    exact or_empty_blank.
Qed.

Lemma pdf_without_text_is_rejected_witness :
  script ascii_lower (fixed_readers [None; Some []; Some (u "  ")] (u "text"))
    (canned (u "ok"))
    (Some {| name := u "Scan.PDF"; body := [] |}) true short_label []
  = (Completed,
     [] ++ [ SpinnerOn (u "Extracting text..."); SpinnerOff;
             StError (u "Unsupported or empty file.") ]).
Proof.
  apply (pdf_without_text_is_rejected ascii_lower
           (fixed_readers [None; Some []; Some (u "  ")] (u "text"))
           (canned (u "ok"))
           {| name := u "Scan.PDF"; body := [] |}
           [None; Some []; Some (u "  ")] short_label []).
  - reflexivity.
  - reflexivity.
  - repeat constructor.
Defined.

(** Requests are sent only for a pressed button, an uploaded file and text
    extracted from it that is not blank. *)
Theorem requests_need_text
  (lower : str -> str) (readers : Readers)
  (capability : list Event -> Request -> Reply)
  (uploaded_file : option File) (button : bool)
  (summary_type : str) (log evs : list Event) (e : Ending) :
  script lower readers capability uploaded_file button summary_type log
  = (e, log ++ evs) ->
  requests evs <> [] ->
  exists file t,
    uploaded_file = Some file /\ button = true /\
    extract_text lower readers file = Got (Some t) /\ ~ blank t.
Proof.
  intros Hrun Hreq.
  assert (Hsame : forall X, log ++ X = log ++ evs -> requests X = [] -> False).
  { intros X E HX. apply app_inv_head in E. subst X. exact (Hreq HX). }
  unfold script in Hrun.
  destruct uploaded_file as [file|].
  2:{ exfalso. apply (Hsame []); [|reflexivity].
      rewrite app_nil_r. injection Hrun as _ Hl. exact Hl. }
  destruct button.
  2:{ exfalso. apply (Hsame []); [|reflexivity].
      rewrite app_nil_r. injection Hrun as _ Hl. exact Hl. }
  destruct (extract_text lower readers file) as [text|] eqn:Hx.
  2:{ exfalso.
      apply (Hsame [SpinnerOn (u "Extracting text..."); SpinnerOff]);
        [|reflexivity].
      injection Hrun as _ Hl. exact Hl. }
  destruct (generate_summary_cases capability text summary_type)
    as [[_ Hgen]|(t & -> & B & _)].
  - exfalso. rewrite Hgen in Hrun.
    apply (Hsame [ SpinnerOn (u "Extracting text..."); SpinnerOff;
                   StError (u "Unsupported or empty file.") ]);
      [|reflexivity].
    injection Hrun as _ Hl. rewrite <- app_assoc in Hl. exact Hl.
  - exists file, t. split; [reflexivity|]. split; [reflexivity|].
    split; [exact Hx|exact B].
Qed.

Lemma requests_need_text_witness :
  exists file t,
    Some {| name := u "notes.txt"; body := [] |} = Some file /\
    true = true /\
    extract_text ascii_lower (fixed_readers [] (u "Hello world.")) file
    = Got (Some t) /\
    ~ blank t.
Proof.
  apply (requests_need_text ascii_lower (fixed_readers [] (u "Hello world."))
           (canned (u "ok"))
           (Some {| name := u "notes.txt"; body := [] |}) true short_label []
           (snd (script ascii_lower (fixed_readers [] (u "Hello world."))
                   (canned (u "ok"))
                   (Some {| name := u "notes.txt"; body := [] |}) true
                   short_label []))
           Completed).
  - vm_compute. reflexivity.
  - vm_compute. discriminate.
Defined.
